(** * Set2Set: iterative content-based attention pooling

    A shallow embedding of [torch_geometric/nn/glob/set2set.py] and the
    properties of its [forward] pass.

    Tensors are nested lists in row-major order.  The scalar arithmetic is an
    interface ([Scalar]); the results on shapes, iteration counts and state
    hold for every implementation of it, the results on the values of the
    softmax are proved for the real numbers.  The recurrent primitive
    ([torch.nn.LSTM]) is an interface too ([Recurrent]). *)

From Stdlib Require Import List ZArith Lia Bool Arith PeanoNat Permutation.
From Stdlib Require Import Reals Lra.
From Stdlib Require String Ascii DecimalString DecimalZ DecimalPos.
Import ListNotations.

(* ================================================================= *)
(** ** Errors *)

(** A Python exception is [None]. *)
Definition obind {A B : Type} (o : option A) (k : A -> option B) : option B :=
  match o with
  | Some a => k a
  | None => None
  end.

Notation "x <-? o ;; k" := (obind o (fun x => k))
  (at level 61, o at next level, right associativity).

(* ================================================================= *)
(** ** Scalars and tensors *)

(** The arithmetic of the tensor elements, as far as [forward] uses it. *)
Class Scalar (F : Type) : Type := {
  s_zero : F;
  s_add : F -> F -> F;
  s_mul : F -> F -> F;
  s_div : F -> F -> F;
  s_exp : F -> F
}.

Abbreviation Tensor1 F := (list F) (only parsing).
Abbreviation Tensor2 F := (list (list F)) (only parsing).
Abbreviation Tensor3 F := (list (list (list F))) (only parsing).

Definition has_shape2 {F : Type} (n m : nat) (t : Tensor2 F) : Prop :=
  length t = n /\ Forall (fun r => length r = m) t.

Definition has_shape3 {F : Type} (a b c : nat) (t : Tensor3 F) : Prop :=
  length t = a /\ Forall (has_shape2 b c) t.

(** A size given as a Python integer: negative sizes are refused. *)
Definition dim (d : Z) : option nat :=
  if (d <? 0)%Z then None else Some (Z.to_nat d).

(** [chunks n c l]: the first [n] consecutive blocks of [c] elements. *)
Fixpoint chunks {A : Type} (n c : nat) (l : list A) : list (list A) :=
  match n with
  | O => []
  | S n' => firstn c l :: chunks n' c (skipn c l)
  end.

Fixpoint mapM {A B : Type} (f : A -> option B) (l : list A)
  : option (list B) :=
  match l with
  | [] => Some []
  | a :: l' => b <-? f a;; bs <-? mapM f l';; Some (b :: bs)
  end.

(** Element by element; lists of different lengths are an error. *)
Fixpoint zipM {A B C : Type} (f : A -> B -> option C)
  (l1 : list A) (l2 : list B) : option (list C) :=
  match l1, l2 with
  | [], [] => Some []
  | a :: l1', b :: l2' => c <-? f a b;; cs <-? zipM f l1' l2';; Some (c :: cs)
  | _, _ => None
  end.

(** Broadcasting along one axis: equal sizes go element by element, a size
    of one is repeated along the other operand, anything else is an error. *)
Definition bcast {A B C : Type} (f : A -> B -> option C)
  (l1 : list A) (l2 : list B) : option (list C) :=
  if length l1 =? length l2 then zipM f l1 l2
  else match l2 with
       | [b] => mapM (fun a => f a b) l1
       | _ => match l1 with
              | [a] => mapM (fun b => f a b) l2
              | _ => None
              end
       end.

Section TensorOps.
Context {F : Type} {SF : Scalar F}.

Definition zeros1 (c : nat) : Tensor1 F := repeat s_zero c.
Definition zeros2 (b c : nat) : Tensor2 F := repeat (zeros1 c) b.
Definition zeros3 (a b c : nat) : Tensor3 F := repeat (zeros2 b c) a.

(** [x.new_zeros(d0, d1, d2)] *)
Definition new_zeros3 (d0 d1 d2 : Z) : option (Tensor3 F) :=
  a <-? dim d0;; b <-? dim d1;; c <-? dim d2;; Some (zeros3 a b c).

(** [x.size()] of a three-dimensional tensor. *)
Definition size3 (x : Tensor3 F) : nat * nat * nat :=
  (length x, length (hd [] x), length (hd [] (hd [] x))).

(** The elements in storage (row-major) order. *)
Definition flatten2 (t : Tensor2 F) : list F := concat t.
Definition flatten3 (t : Tensor3 F) : list F := concat (concat t).

(** [t.view(d0, d1)] and [t.view(d0, d1, d2)] on the storage of [t]: the
    same elements in the same order under a new shape, an error when the
    number of elements differs.  Every size reaching a view in [forward]
    has already been accepted by [new_zeros3], so the inferred size [-1]
    of PyTorch never occurs and is refused here like any negative size. *)
Definition view2 (d0 d1 : Z) (flat : list F) : option (Tensor2 F) :=
  a <-? dim d0;; b <-? dim d1;;
  if length flat =? a * b then Some (chunks a b flat) else None.

Definition view3 (d0 d1 d2 : Z) (flat : list F) : option (Tensor3 F) :=
  a <-? dim d0;; b <-? dim d1;; c <-? dim d2;;
  if length flat =? a * (b * c)
  then Some (map (chunks b c) (chunks a (b * c) flat))
  else None.

(** [t * u] with broadcasting, for operands of the same rank. *)
Definition mul1 : Tensor1 F -> Tensor1 F -> option (Tensor1 F) :=
  bcast (fun a b => Some (s_mul a b)).
Definition mul2 : Tensor2 F -> Tensor2 F -> option (Tensor2 F) :=
  bcast mul1.
Definition mul3 : Tensor3 F -> Tensor3 F -> option (Tensor3 F) :=
  bcast mul2.

Definition sum1 (v : Tensor1 F) : F := fold_right s_add s_zero v.

(** [t.sum(dim=-1)] *)
Definition sum_last (t : Tensor3 F) : Tensor2 F := map (map sum1) t.

(** [torch.softmax(t, dim=-1)] *)
Definition softmax1 (v : Tensor1 F) : Tensor1 F :=
  let ex := map s_exp v in
  let d := sum1 ex in
  map (fun y => s_div y d) ex.

Definition softmax (t : Tensor2 F) : Tensor2 F := map softmax1 t.

(** [t.sum(dim=1, keepdim=True)]: the rows of every matrix are added up
    column by column.  A nested list with no row does not record its
    width; [to_batch] gives at least one row whenever there is a set. *)
Definition column (c : nat) (m : Tensor2 F) : Tensor1 F :=
  map (fun r => nth c r s_zero) m.

Definition sum_rows (m : Tensor2 F) : Tensor1 F :=
  map (fun c => sum1 (column c m)) (seq 0 (length (hd [] m))).

Definition sum_dim1_keepdim (t : Tensor3 F) : Tensor3 F :=
  map (fun m => [sum_rows m]) t.

(** [torch.cat([t, u], dim=-1)] *)
Definition cat_last (t u : Tensor3 F) : option (Tensor3 F) :=
  zipM (zipM (fun a b => Some (a ++ b))) t u.

(* --------------------------------------------------------------- *)
(** *** The batching primitive *)

(** Modelled from the spec: [torch_geometric.utils.to_batch] is not among
    the sources.  Given N element vectors and N set-id tags it groups the
    elements by set-id, keeping their order, pads each set's element list
    with zero vectors to the maximum set size found in the batch, and
    returns the dense (num_sets, max_set_size, C) tensor together with
    the per-set counts.  Sequences of different lengths are an error.
    Set-ids are natural numbers (a negative index is an error of the
    primitive).  The definitions up to [to_batch] are the parts of this
    model. *)

(** Modelled from the spec: the number of sets of [to_batch]; the set-ids
    are [0 .. num_sets - 1]. *)
Definition num_sets (batch : list nat) : nat :=
  fold_right (fun b acc => Nat.max (S b) acc) 0 batch.

(** Modelled from the spec: the feature vectors that [to_batch] groups
    under set-id [s], in input order. *)
Definition members (x : Tensor2 F) (batch : list nat) (s : nat)
  : Tensor2 F :=
  map fst (filter (fun p => snd p =? s) (combine x batch)).

(** Modelled from the spec: the padding of [to_batch], zero vectors of
    width [c] up to [m] rows. *)
Definition pad (m c : nat) (rows : Tensor2 F) : Tensor2 F :=
  rows ++ repeat (zeros1 c) (m - length rows).

(** Modelled from the spec: the sets of [to_batch], by set-id. *)
Definition sets_of (x : Tensor2 F) (batch : list nat) : Tensor3 F :=
  map (members x batch) (seq 0 (num_sets batch)).

(** Modelled from the spec: the maximum set size found in the batch. *)
Definition max_set_size (x : Tensor2 F) (batch : list nat) : nat :=
  list_max (map (@length _) (sets_of x batch)).

(** Modelled from the spec: the dense tensor that [to_batch] returns. *)
Definition padded (x : Tensor2 F) (batch : list nat) : Tensor3 F :=
  map (pad (max_set_size x batch) (length (hd [] x))) (sets_of x batch).

(** Modelled from the spec: [to_batch(x, batch)], the padded tensor and the
    per-set counts. *)
Definition to_batch (x : Tensor2 F) (batch : list nat)
  : option (Tensor3 F * list nat) :=
  if length x =? length batch then
    Some (padded x batch, map (@length _) (sets_of x batch))
  else None.

(* --------------------------------------------------------------- *)
(** *** One round of attention (lines 56 to 62 of [forward]) *)

(** [e = (x * q).sum(dim=-1)] *)
Definition scores (x q : Tensor3 F) : option (Tensor2 F) :=
  xq <-? mul3 x q;; Some (sum_last xq).

Definition attend (batch_size max_nodes : nat) (in_channels out_channels : Z)
  (x q : Tensor3 F) : option (Tensor3 F) :=
  q <-? view3 (Z.of_nat batch_size) 1 in_channels (flatten3 q);;
  e <-? scores x q;;
  let a := softmax e in
  a <-? view3 (Z.of_nat batch_size) (Z.of_nat max_nodes) 1 (flatten2 a);;
  ax <-? mul3 a x;;
  let r := sum_dim1_keepdim ax in
  q_star <-? cat_last q r;;
  view3 1 (Z.of_nat batch_size) out_channels (flatten3 q_star).
End TensorOps.

(* ================================================================= *)
(** ** The recurrent primitive *)

(** [torch.nn.LSTM] as the module uses it: a constructor taking
    (input_size, hidden_size, num_layers), the re-initialisation of the
    weights, and the step [lstm(input, (h, c)) = (output, (h', c'))], which
    reads the weights and is handed its state explicitly.  The module
    configures no dropout, so the step is a function of the weights, the
    input and the state. *)
Class Recurrent (F L : Type) : Type := {
  lstm_new : Z -> Z -> Z -> option L;
  lstm_reset_parameters : L -> L;
  lstm_forward :
    L -> Tensor3 F -> Tensor3 F * Tensor3 F ->
    option (Tensor3 F * (Tensor3 F * Tensor3 F))
}.

(** The shape contract of the step for weights [l], hidden size [c] (input
    size [2 * c]), [layers] stacked layers and batches of [b] sequences of
    length one. *)
Definition lstm_shapes {F L : Type} {RL : Recurrent F L}
  (l : L) (layers b c : nat) : Prop :=
  forall q h0 c0,
    has_shape3 1 b (2 * c) q ->
    has_shape3 layers b c h0 -> has_shape3 layers b c c0 ->
    exists q' h1 c1,
      lstm_forward l q (h0, c0) = Some (q', (h1, c1)) /\
      has_shape3 1 b c q' /\
      has_shape3 layers b c h1 /\ has_shape3 layers b c c1.

(* ================================================================= *)
(** ** The module *)

Record Set2Set (L : Type) : Type := {
  in_channels : Z;
  out_channels : Z;
  processing_steps : Z;
  num_layers : Z;
  lstm : L
}.

Arguments in_channels {L} _.
Arguments out_channels {L} _.
Arguments processing_steps {L} _.
Arguments num_layers {L} _.
Arguments lstm {L} _.

(** What a call can read and write: the module object, and a counter of the
    invocations of the recurrent step (an instrumentation of [self.lstm]). *)
Record World (L : Type) : Type := {
  self : Set2Set L;
  lstm_calls : nat
}.

Arguments self {L} _.
Arguments lstm_calls {L} _.

Definition M (L A : Type) : Type := World L -> option A * World L.

Definition ret {L A : Type} (a : A) : M L A := fun w => (Some a, w).

Definition bind {L A B : Type} (m : M L A) (k : A -> M L B) : M L B :=
  fun w =>
    match m w with
    | (Some a, w') => k a w'
    | (None, w') => (None, w')
    end.

Notation "x <- m ;; k" := (bind m (fun x => k))
  (at level 61, m at next level, right associativity).

(** An operation that may raise, without touching the state. *)
Definition lift {L A : Type} (o : option A) : M L A := fun w => (o, w).

Definition get_self {L : Type} : M L (Set2Set L) := fun w => (Some (self w), w).


(** [range(n)] *)
Definition range (n : Z) : list Z := map Z.of_nat (seq 0 (Z.to_nat n)).

(** [for i in l: s = body(i, s)] *)
Fixpoint for_each {L I S : Type} (body : I -> S -> M L S) (l : list I) (s : S)
  : M L S :=
  match l with
  | [] => ret s
  | i :: l' => s' <- body i s;; for_each body l' s'
  end.

Section Module.
Context {F : Type} {SF : Scalar F} {L : Type} {RL : Recurrent F L}.

(** [self.lstm(q_star, h)] *)
Definition call_lstm (q_star : Tensor3 F) (h : Tensor3 F * Tensor3 F)
  : M L (Tensor3 F * (Tensor3 F * Tensor3 F)) :=
  fun w =>
    (lstm_forward (lstm (self w)) q_star h,
     {| self := self w; lstm_calls := S (lstm_calls w) |}).



(** The body of the loop, lines 55 to 62. *)
Definition step (batch_size max_nodes : nat) (x : Tensor3 F)
  (i : Z) (st : Tensor3 F * (Tensor3 F * Tensor3 F))
  : M L (Tensor3 F * (Tensor3 F * Tensor3 F)) :=
  let '(q_star, h) := st in
  qh <- call_lstm q_star h;;
  let '(q, h) := qh in
  s <- get_self;;
  q_star <- lift (attend batch_size max_nodes
                    (in_channels s) (out_channels s) x q);;
  ret (q_star, h).

Definition forward (x : Tensor2 F) (batch : list nat) : M L (Tensor2 F) :=
  xn <- lift (to_batch x batch);;
  let x := fst xn in
  let '(batch_size, max_nodes, _) := size3 x in
  s <- get_self;;
  h0 <- lift (new_zeros3 (num_layers s) (Z.of_nat batch_size)
                (in_channels s));;
  c0 <- lift (new_zeros3 (num_layers s) (Z.of_nat batch_size)
                (in_channels s));;
  let h := (h0, c0) in
  q_star <- lift (new_zeros3 1 (Z.of_nat batch_size) (out_channels s));;
  s <- get_self;;
  st <- for_each (step batch_size max_nodes x)
          (range (processing_steps s)) (q_star, h);;
  let '(q_star, _) := st in
  s <- get_self;;
  lift (view2 (Z.of_nat batch_size) (out_channels s) (flatten3 q_star)).
End Module.

(** The module as [__init__] leaves it, for feature vectors of dimension
    [c] and [layers] recurrent layers. *)
Definition configured {L : Type} (s : Set2Set L) (layers c : nat) : Prop :=
  in_channels s = Z.of_nat c /\
  out_channels s = Z.of_nat (2 * c) /\
  num_layers s = Z.of_nat layers.

(** A module that differs in the number of processing steps only. *)
Definition with_processing_steps {L : Type} (steps : Z) (s : Set2Set L)
  : Set2Set L :=
  {| in_channels := in_channels s;
     out_channels := out_channels s;
     processing_steps := steps;
     num_layers := num_layers s;
     lstm := lstm s |}.

(** The world after [n] more invocations of the recurrent step. *)
Definition called {L : Type} (n : nat) (w : World L) : World L :=
  {| self := self w; lstm_calls := lstm_calls w + n |}.

(** A computation that leaves the module object as it found it, and whose
    result depends on the world through the module object only. *)
Definition reads_self {L A : Type} (m : M L A) : Prop :=
  forall w,
    self (snd (m w)) = self w /\
    forall w', self w' = self w -> fst (m w') = fst (m w).

(* ================================================================= *)
(** ** The round of attention, set by set *)

Definition zip_with {A B C : Type} (g : A -> B -> C)
  (l1 : list A) (l2 : list B) : list C :=
  map (fun p => g (fst p) (snd p)) (combine l1 l2).

Section PerSetDefs.
Context {F : Type} {SF : Scalar F}.

(** What one round computes for a set with (padded) rows [xs] and query
    [qs]. *)
Definition dot (xj qs : Tensor1 F) : F := sum1 (zip_with s_mul xj qs).
Definition set_scores (xs : Tensor2 F) (qs : Tensor1 F) : Tensor1 F :=
  map (fun xj => dot xj qs) xs.
Definition scale (a : F) (xj : Tensor1 F) : Tensor1 F := map (s_mul a) xj.
Definition set_weights (xs : Tensor2 F) (qs : Tensor1 F) : Tensor1 F :=
  softmax1 (set_scores xs qs).
Definition set_readout (xs : Tensor2 F) (qs : Tensor1 F) : Tensor1 F :=
  sum_rows (zip_with scale (set_weights xs qs) xs).
Definition set_q_star (xs : Tensor2 F) (qs : Tensor1 F) : Tensor1 F :=
  qs ++ set_readout xs qs.

(** The shapes of the loop state [(q_star, (h, c))]. *)
Definition state_ok (layers b c : nat)
  (st : Tensor3 F * (Tensor3 F * Tensor3 F)) : Prop :=
  has_shape3 1 b (2 * c) (fst st) /\
  has_shape3 layers b c (fst (snd st)) /\
  has_shape3 layers b c (snd (snd st)).
End PerSetDefs.

(* ================================================================= *)
(** ** The round of attention, as the specification writes it *)

Section SpecDefs.
Context {F : Type} {SF : Scalar F}.

(** [sum_{i < n} f i] *)
Definition big_sum (n : nat) (f : nat -> F) : F := sum1 (map f (seq 0 n)).

(** [x[s, j, c]] and [q[s, c]] *)
Definition at3 (x : Tensor3 F) (s j c : nat) : F :=
  nth c (nth j (nth s x []) []) s_zero.
Definition at2 (q : Tensor2 F) (s c : nat) : F :=
  nth c (nth s q []) s_zero.

(** [e[s, j] = sum_c x[s, j, c] * q[s, c]] *)
Definition spec_e (C : nat) (x : Tensor3 F) (q : Tensor2 F) (s j : nat) : F :=
  big_sum C (fun c => s_mul (at3 x s j c) (at2 q s c)).

(** [a[s, j] = exp(e[s, j]) / sum_j' exp(e[s, j'])] *)
Definition spec_a (M C : nat) (x : Tensor3 F) (q : Tensor2 F) (s j : nat)
  : F :=
  s_div (s_exp (spec_e C x q s j))
    (big_sum M (fun j' => s_exp (spec_e C x q s j'))).

(** [r[s] = sum_j a[s, j] * x[s, j]], component [c] *)
Definition spec_r (M C : nat) (x : Tensor3 F) (q : Tensor2 F) (s c : nat)
  : F :=
  big_sum M (fun j => s_mul (spec_a M C x q s j) (at3 x s j c)).

End SpecDefs.

(* ================================================================= *)
(** ** Instances *)

(** The real numbers, the arithmetic that the floating-point tensors
    approximate. *)
#[export] Instance R_Scalar : Scalar R := {|
  s_zero := 0%R;
  s_add := Rplus;
  s_mul := Rmult;
  s_div := Rdiv;
  s_exp := exp
|}.

(** A recurrent primitive to run the definitions on.  Its constructor checks
    its sizes; its step returns the first half of every input row and hands
    the state back. *)
Definition halve {F : Type} (q : Tensor3 F) : Tensor3 F :=
  map (map (fun r => firstn (Nat.div2 (length r)) r)) q.

Definition halving_lstm (F : Type) : Recurrent F unit := {|
  lstm_new := fun _ hidden_size layers =>
    if ((0 <? hidden_size) && (0 <? layers))%Z then Some tt else None;
  lstm_reset_parameters := fun l => l;
  lstm_forward := fun _ q h => Some (halve q, h)
|}.

Definition example_net (steps : Z) : Set2Set unit :=
  {| in_channels := 2;
     out_channels := 4;
     processing_steps := steps;
     num_layers := 1;
     lstm := tt |}.

Definition example_world (steps : Z) : World unit :=
  {| self := example_net steps; lstm_calls := 0 |}.

Definition example_x : list (list R) := [[1; 2]; [3; 4]; [5; 6]]%R.
Definition example_batch : list nat := [0; 0; 1].
Definition example_padded : list (list (list R)) :=
  [[[1; 2]; [3; 4]]; [[5; 6]; [0; 0]]]%R.

(* ================================================================= *)
(** ** The representation of the module (lines 67 to 69) *)

Module Repr.
Import String Ascii.
Local Open Scope string_scope.

(** [str(n)] of a Python integer: decimal digits, with a minus sign for a
    negative number. *)
Definition str (n : Z) : string :=
  DecimalString.NilZero.string_of_int (Z.to_int n).

(** [template.format(args)] for templates with automatically numbered
    fields: [{}] is replaced by the next argument (an error when none is
    left), [{{] and [}}] stand for a brace, any other brace is an error.
    Numbered and named fields are not modelled and are errors here. *)
Fixpoint format (template : string) (args : list string) : option string :=
  match template with
  | EmptyString => Some EmptyString
  | String ch rest =>
      if (ch =? "{")%char then
        match rest with
        | String ch' rest' =>
            if (ch' =? "}")%char then
              match args with
              | a :: args' => option_map (append a) (format rest' args')
              | [] => None
              end
            else if (ch' =? "{")%char then
              option_map (String "{") (format rest' args)
            else None
        | EmptyString => None
        end
      else if (ch =? "}")%char then
        match rest with
        | String ch' rest' =>
            if (ch' =? "}")%char then
              option_map (String "}") (format rest' args)
            else None
        | EmptyString => None
        end
      else option_map (String ch) (format rest args)
  end.

(** [__repr__], called on an object whose class is named [class_name]:
    [self.__class__.__name__] is the name of the class of the object at
    run time, "Set2Set" or the name of a subclass that inherits the
    method.  The module record carries no class, so the name is an
    argument. *)
Definition __repr__ {L : Type} (class_name : string) : M L string :=
  s <- get_self;;
  lift (format "{}({}, {})"
          [class_name; str (in_channels s); str (out_channels s)]).

(** [s] does not contain the character [c]. *)
Fixpoint free_of (c : ascii) (s : string) : Prop :=
  match s with
  | EmptyString => True
  | String ch rest => ch <> c /\ free_of c rest
  end.
End Repr.

(* ================================================================= *)
(** * Running the definitions *)

Example view3_regroups :
  view3 2 1 2 (flatten3 [[[1; 2]; [3; 4]]]%R) = Some [[[1; 2]]; [[3; 4]]]%R.
Proof. reflexivity. Qed.

Example view3_refuses_other_sizes :
  view3 2 1 3 (flatten3 [[[1; 2]; [3; 4]]]%R) = None.
Proof. reflexivity. Qed.

Example mul3_broadcasts :
  mul3 [[[1; 2]; [3; 4]]]%R [[[5; 6]]]%R
  = Some [[[1 * 5; 2 * 6]; [3 * 5; 4 * 6]]]%R.
Proof. reflexivity. Qed.

Example mul3_refuses_other_sizes :
  mul3 [[[1; 2]; [3; 4]]]%R [[[5; 6]; [7; 8]; [9; 0]]]%R = None.
Proof. reflexivity. Qed.

Example sum_dim1_keepdim_adds_rows :
  sum_dim1_keepdim [[[1; 2]; [3; 4]]]%R = [[[1 + (3 + 0); 2 + (4 + 0)]]]%R.
Proof. reflexivity. Qed.

Example to_batch_refuses_other_lengths :
  to_batch example_x [0; 0] = None.
Proof. reflexivity. Qed.

Example range_of_negative : range (-3) = [].
Proof. reflexivity. Qed.

(** A feature width other than [in_channels] stops the first round, after
    one call of the recurrent step. *)
Example forward_other_width :
  forward (RL := halving_lstm R) [[1; 2; 3]; [4; 5; 6]]%R [0; 0]
    (example_world 3)
  = (None, called 1 (example_world 3)).
Proof. reflexivity. Qed.

(** One set with one element: the weight of the element is 1 and the
    readout is the element. *)
Example forward_single_element :
  fst (forward (RL := halving_lstm R) [[1; 2]]%R [0] (example_world 1))
  = Some [[0; 0; 1; 2]]%R.
Proof.
  cbv -[Rplus Rmult Rdiv exp IZR].
  rewrite !Rmult_0_r, !Rplus_0_r, exp_0.
  f_equal. repeat first [reflexivity | apply (f_equal2 cons) | lra].
Qed.

(** Two sets of two and one elements: the padding row of the second set
    takes half of its weight. *)
Example forward_padded_set :
  fst (forward (RL := halving_lstm R) example_x example_batch
         (example_world 1))
  = Some [[0; 0; 2; 3]; [0; 0; 5 / 2; 3]]%R.
Proof.
  cbv -[Rplus Rmult Rdiv exp IZR].
  rewrite !Rmult_0_r, !Rplus_0_r, exp_0.
  f_equal. repeat first [reflexivity | apply (f_equal2 cons) | lra].
Qed.

(* ================================================================= *)
(** * Lemmas *)

Lemma dim_of_nat (n : nat) : dim (Z.of_nat n) = Some n.
Proof.
  unfold dim. destruct (Z.ltb_spec (Z.of_nat n) 0); [lia|].
  now rewrite Nat2Z.id.
Qed.

(* --------------------------------------------------------------- *)
(** ** Blocks of a list *)

Section ListFacts.
Context {A : Type}.

Lemma length_concat_uniform {c : nat} {rows : list (list A)} :
  Forall (fun r => length r = c) rows -> length (concat rows) = length rows * c.
Proof.
  induction 1 as [|r rows Hr _ IH]; simpl; [reflexivity|].
  rewrite length_app, IH, Hr. reflexivity.
Qed.

Lemma chunks_concat {c : nat} {rows : list (list A)} :
  Forall (fun r => length r = c) rows ->
  chunks (length rows) c (concat rows) = rows.
Proof.
  induction 1 as [|r rows Hr _ IH]; simpl; [reflexivity|]. subst c.
  rewrite firstn_app, skipn_app, Nat.sub_diag, firstn_all, skipn_all.
  simpl. now rewrite app_nil_r, IH.
Qed.

Lemma chunks_whole (l : list A) : chunks 1 (length l) l = [l].
Proof. simpl. now rewrite firstn_all. Qed.

Lemma chunks_singletons (l : list A) :
  chunks (length l) 1 l = map (fun y => [y]) l.
Proof. induction l as [|a l IH]; simpl; [reflexivity|]. now rewrite IH. Qed.

Lemma concat_singletons (l : list A) : concat (map (fun y => [y]) l) = l.
Proof. induction l as [|a l IH]; simpl; [reflexivity|]. now rewrite IH. Qed.

End ListFacts.

Lemma mapM_Some {A B : Type} (f : A -> option B) (g : A -> B) (l : list A) :
  (forall a, In a l -> f a = Some (g a)) -> mapM f l = Some (map g l).
Proof.
  induction l as [|a l IH]; intros H; simpl; [reflexivity|].
  rewrite (H a (or_introl eq_refl)). simpl.
  rewrite IH by (intros; apply H; now right). reflexivity.
Qed.

(* --------------------------------------------------------------- *)
(** ** Element-wise operations and broadcasting *)

Section ZipFacts.
Context {A B C : Type}.

Lemma zip_with_cons (g : A -> B -> C) a b l1 l2 :
  zip_with g (a :: l1) (b :: l2) = g a b :: zip_with g l1 l2.
Proof. reflexivity. Qed.

Lemma length_zip_with (g : A -> B -> C) l1 l2 :
  length l1 = length l2 -> length (zip_with g l1 l2) = length l1.
Proof.
  intros H. unfold zip_with. rewrite length_map, length_combine. lia.
Qed.

Lemma zipM_Some (f : A -> B -> option C) (g : A -> B -> C) l1 l2 :
  length l1 = length l2 ->
  (forall a b, In (a, b) (combine l1 l2) -> f a b = Some (g a b)) ->
  zipM f l1 l2 = Some (zip_with g l1 l2).
Proof.
  revert l2. induction l1 as [|a l1 IH]; intros [|b l2] Hlen H;
    try discriminate; simpl; [reflexivity|].
  rewrite (H a b (or_introl eq_refl)). simpl.
  rewrite (IH l2) by (try (intros; apply H; now right); simpl in Hlen; lia).
  reflexivity.
Qed.

Lemma bcast_zip (f : A -> B -> option C) (g : A -> B -> C) l1 l2 :
  length l1 = length l2 ->
  (forall a b, In (a, b) (combine l1 l2) -> f a b = Some (g a b)) ->
  bcast f l1 l2 = Some (zip_with g l1 l2).
Proof.
  intros Hlen H. unfold bcast. rewrite (proj2 (Nat.eqb_eq _ _) Hlen).
  now apply zipM_Some.
Qed.

Lemma bcast_right (f : A -> B -> option C) (g : A -> B -> C) l1 b :
  (forall a, In a l1 -> f a b = Some (g a b)) ->
  bcast f l1 [b] = Some (map (fun a => g a b) l1).
Proof.
  intros H. unfold bcast. destruct (Nat.eqb_spec (length l1) (length [b])) as [E|E].
  - destruct l1 as [|a [|]]; try discriminate. simpl.
    now rewrite (H a (or_introl eq_refl)).
  - now apply mapM_Some.
Qed.

Lemma bcast_left (f : A -> B -> option C) (g : A -> B -> C) a l2 :
  (forall b, In b l2 -> f a b = Some (g a b)) ->
  bcast f [a] l2 = Some (map (g a) l2).
Proof.
  intros H. unfold bcast. destruct (Nat.eqb_spec (length [a]) (length l2)) as [E|E].
  - destruct l2 as [|b [|]]; try discriminate. simpl.
    now rewrite (H b (or_introl eq_refl)).
  - destruct l2 as [|b [|b' l2]]; [reflexivity|now elim E|].
    now apply mapM_Some.
Qed.
End ZipFacts.

Lemma zip_with_map_l {A A' B C : Type} (g : A' -> B -> C) (h : A -> A') l1 l2 :
  zip_with g (map h l1) l2 = zip_with (fun a b => g (h a) b) l1 l2.
Proof.
  revert l2. induction l1 as [|a l1 IH]; intros [|b l2]; try reflexivity.
  simpl. rewrite !zip_with_cons. now rewrite IH.
Qed.

Lemma zip_with_map_r {A B B' C : Type} (g : A -> B' -> C) (h : B -> B') l1 l2 :
  zip_with g l1 (map h l2) = zip_with (fun a b => g a (h b)) l1 l2.
Proof.
  revert l2. induction l1 as [|a l1 IH]; intros [|b l2]; try reflexivity.
  simpl. rewrite !zip_with_cons. now rewrite IH.
Qed.

Lemma zip_with_ext_in {A B C : Type} (g g' : A -> B -> C) l1 l2 :
  (forall a b, In (a, b) (combine l1 l2) -> g a b = g' a b) ->
  zip_with g l1 l2 = zip_with g' l1 l2.
Proof.
  intros H. unfold zip_with. apply map_ext_in. intros [a b] Hin. now apply H.
Qed.

Lemma in_combine_Forall {A B : Type} {P : A -> Prop} {Q : B -> Prop} {l1 l2 a b} :
  Forall P l1 -> Forall Q l2 -> In (a, b) (combine l1 l2) -> P a /\ Q b.
Proof.
  intros H1 H2 Hin. rewrite Forall_forall in H1, H2. split.
  - eapply H1, in_combine_l; eauto.
  - eapply H2, in_combine_r; eauto.
Qed.

Lemma map_zip_with {A B C D : Type} (h : C -> D) (g : A -> B -> C) l1 l2 :
  map h (zip_with g l1 l2) = zip_with (fun a b => h (g a b)) l1 l2.
Proof. unfold zip_with. now rewrite map_map. Qed.

Lemma Forall_zip_with {A B C : Type} (P : C -> Prop) (g : A -> B -> C) l1 l2 :
  (forall a b, In (a, b) (combine l1 l2) -> P (g a b)) ->
  Forall P (zip_with g l1 l2).
Proof.
  intros H. unfold zip_with. rewrite Forall_map, Forall_forall.
  intros [a b] Hin. now apply H.
Qed.

Lemma zip_with_reuse_l {A B C D : Type} (h : C -> A -> D) (g : A -> B -> C) l1 l2 :
  zip_with h (zip_with g l1 l2) l1 = zip_with (fun a b => h (g a b) a) l1 l2.
Proof.
  revert l2. induction l1 as [|a l1 IH]; intros [|b l2]; try reflexivity.
  rewrite !zip_with_cons. now rewrite IH.
Qed.

Lemma zip_with_reuse_r {A B C D : Type} (h : B -> C -> D) (g : A -> B -> C) l1 l2 :
  zip_with h l2 (zip_with g l1 l2) = zip_with (fun a b => h b (g a b)) l1 l2.
Proof.
  revert l2. induction l1 as [|a l1 IH]; intros [|b l2]; try reflexivity.
  rewrite !zip_with_cons. now rewrite IH.
Qed.

(* --------------------------------------------------------------- *)
(** ** The tensor operations of a round *)

Section PerSet.
Context {F : Type} {SF : Scalar F}.

Lemma view3_sets (b c : nat) (rows : Tensor2 F) :
  has_shape2 b c rows ->
  view3 (Z.of_nat b) 1 (Z.of_nat c) (flatten3 [rows])
  = Some (map (fun r => [r]) rows).
Proof.
  intros [Hb Hc]. unfold view3, flatten3.
  rewrite dim_of_nat. simpl. rewrite dim_of_nat. simpl.
  rewrite app_nil_r, Nat.add_0_r, (length_concat_uniform Hc), Hb, Nat.eqb_refl.
  rewrite <- Hb, (chunks_concat Hc). f_equal.
  apply map_ext_in. intros r Hr. rewrite Forall_forall in Hc.
  rewrite <- (Hc r Hr). apply chunks_whole.
Qed.

Lemma view3_elements (b m : nat) (a : Tensor2 F) :
  has_shape2 b m a ->
  view3 (Z.of_nat b) (Z.of_nat m) 1 (flatten2 a)
  = Some (map (map (fun y => [y])) a).
Proof.
  intros [Hb Hm]. unfold view3, flatten2.
  rewrite !dim_of_nat. simpl. rewrite Nat.mul_1_r.
  rewrite (length_concat_uniform Hm), Hb, Nat.eqb_refl.
  rewrite <- Hb, (chunks_concat Hm). f_equal.
  apply map_ext_in. intros r Hr. rewrite Forall_forall in Hm.
  rewrite <- (Hm r Hr). apply chunks_singletons.
Qed.

Lemma view3_sequence (b c : nat) (rows : Tensor2 F) :
  has_shape2 b c rows ->
  view3 1 (Z.of_nat b) (Z.of_nat c) (flatten3 (map (fun r => [r]) rows))
  = Some [rows].
Proof.
  intros [Hb Hc]. unfold view3, flatten3.
  rewrite !dim_of_nat. simpl. rewrite Nat.add_0_r, concat_singletons.
  rewrite (length_concat_uniform Hc), Hb, Nat.eqb_refl.
  rewrite <- Hb, <- (length_concat_uniform Hc), firstn_all.
  now rewrite (chunks_concat Hc).
Qed.

Lemma view2_output (b c : nat) (rows : Tensor2 F) :
  has_shape2 b c rows ->
  view2 (Z.of_nat b) (Z.of_nat c) (flatten3 [rows]) = Some rows.
Proof.
  intros [Hb Hc]. unfold view2, flatten3.
  rewrite !dim_of_nat. simpl. rewrite app_nil_r.
  rewrite (length_concat_uniform Hc), Hb, Nat.eqb_refl.
  now rewrite <- Hb, (chunks_concat Hc).
Qed.

Lemma mul1_same (xj qs : Tensor1 F) :
  length xj = length qs -> mul1 xj qs = Some (zip_with s_mul xj qs).
Proof. intros H. unfold mul1. now apply bcast_zip. Qed.

Lemma scores_sets (b m c : nat) (x : Tensor3 F) (qrows : Tensor2 F) :
  has_shape3 b m c x -> has_shape2 b c qrows ->
  scores x (map (fun r => [r]) qrows) = Some (zip_with set_scores x qrows).
Proof.
  intros [Hb Hx] [Hq Hc]. unfold scores, mul3.
  rewrite (@bcast_zip _ _ _ mul2
             (fun xs ql => map (fun xj => zip_with s_mul xj (hd [] ql)) xs)).
  - simpl. f_equal. unfold sum_last.
    rewrite zip_with_map_r, map_zip_with. apply zip_with_ext_in.
    intros xs qs _. simpl. unfold set_scores. rewrite map_map.
    reflexivity.
  - rewrite length_map. congruence.
  - intros xs ql Hin.
    assert (Hq' : Forall (fun ql => exists qs, ql = [qs] /\ length qs = c)
                    (map (fun r : list F => [r]) qrows)).
    { rewrite Forall_map. eapply Forall_impl; [|exact Hc].
      simpl. intros qs Hqs. now exists qs. }
    destruct (in_combine_Forall Hx Hq' Hin)
      as [[_ Hxs] (qs & -> & Hqs)].
    unfold mul2. apply bcast_right. intros xj Hxj. simpl.
    apply mul1_same. rewrite Forall_forall in Hxs. rewrite (Hxs xj Hxj).
    now symmetry.
Qed.
Lemma scores_shape (b m c : nat) (x : Tensor3 F) (qrows : Tensor2 F) :
  has_shape3 b m c x -> has_shape2 b c qrows ->
  has_shape2 b m (zip_with set_scores x qrows).
Proof.
  intros [Hb Hx] [Hq Hc]. split.
  - rewrite length_zip_with; congruence.
  - apply Forall_zip_with. intros xs qs Hin.
    destruct (in_combine_Forall Hx Hc Hin) as [[Hm _] _].
    unfold set_scores. now rewrite length_map.
Qed.

Lemma length_softmax1 (v : Tensor1 F) : length (softmax1 v) = length v.
Proof. unfold softmax1. now rewrite !length_map. Qed.

Lemma softmax_shape (b m : nat) (e : Tensor2 F) :
  has_shape2 b m e -> has_shape2 b m (softmax e).
Proof.
  intros [Hb Hm]. unfold softmax. split; [now rewrite length_map|].
  rewrite Forall_map. eapply Forall_impl; [|exact Hm].
  simpl. intros v Hv. now rewrite length_softmax1.
Qed.

Lemma weighted_sets (b m c : nat) (a : Tensor2 F) (x : Tensor3 F) :
  has_shape2 b m a -> has_shape3 b m c x ->
  mul3 (map (map (fun y => [y])) a) x = Some (zip_with (zip_with scale) a x).
Proof.
  intros [Ha Hm] [Hb Hx]. unfold mul3.
  rewrite (@bcast_zip _ _ _ mul2
             (fun am xs => zip_with (fun a1 xj => scale (hd s_zero a1) xj)
                             am xs)).
  - f_equal. rewrite zip_with_map_l. apply zip_with_ext_in.
    intros av xs _. now rewrite zip_with_map_l.
  - rewrite length_map. congruence.
  - intros am xs Hin.
    assert (Ha' : Forall (fun am => length am = m /\
                                    Forall (fun a1 => exists y, a1 = [y]) am)
                    (map (map (fun y : F => [y])) a)).
    { rewrite Forall_map. eapply Forall_impl; [|exact Hm].
      simpl. intros av Hav. rewrite length_map. split; [exact Hav|].
      rewrite Forall_map, Forall_forall. intros y _. now exists y. }
    destruct (in_combine_Forall Ha' Hx Hin) as [[Ham Hsing] [Hxs _]].
    unfold mul2. apply bcast_zip; [congruence|].
    intros a1 xj Hin1.
    assert (HT : Forall (fun _ : list F => True) xs) by (apply Forall_forall; intros; exact I).
    destruct (in_combine_Forall Hsing HT Hin1) as [[y ->] _].
    unfold mul1. simpl. apply bcast_left. reflexivity.
Qed.
Lemma cat_sets (qrows : Tensor2 F) (ax : Tensor3 F) :
  length qrows = length ax ->
  cat_last (map (fun r => [r]) qrows) (sum_dim1_keepdim ax)
  = Some (map (fun r => [r])
            (zip_with (fun qs m => qs ++ sum_rows m) qrows ax)).
Proof.
  intros Hlen. unfold cat_last, sum_dim1_keepdim.
  rewrite (@zipM_Some _ _ _ _ (fun q1 r1 => [hd [] q1 ++ hd [] r1])).
  - f_equal. rewrite zip_with_map_l, zip_with_map_r, map_zip_with.
    reflexivity.
  - now rewrite !length_map.
  - intros q1 r1 Hin.
    assert (Hq : Forall (fun q1 : list (list F) => exists qs, q1 = [qs])
                   (map (fun r => [r]) qrows)).
    { rewrite Forall_map, Forall_forall. intros qs _. now exists qs. }
    assert (Hr : Forall (fun r1 : list (list F) => exists r, r1 = [r])
                   (map (fun m => [sum_rows m]) ax)).
    { rewrite Forall_map, Forall_forall. intros mx _. now eexists. }
    destruct (in_combine_Forall Hq Hr Hin) as [[qs ->] [r ->]].
    reflexivity.
Qed.

Lemma length_set_readout (m c : nat) (xs : Tensor2 F) (qs : Tensor1 F) :
  has_shape2 m c xs -> 0 < m -> length (set_readout xs qs) = c.
Proof.
  intros [Hm Hc] Hpos. unfold set_readout, sum_rows.
  rewrite length_map, length_seq.
  destruct xs as [|xj xs]; [simpl in Hm; lia|].
  inversion Hc; subst. simpl. unfold scale. now rewrite length_map.
Qed.

(** One round of attention, set by set. *)
Lemma attend_sets (b m c : nat) (x : Tensor3 F) (qrows : Tensor2 F) :
  has_shape3 b m c x -> has_shape2 b c qrows -> x = [] \/ 0 < m ->
  attend b m (Z.of_nat c) (Z.of_nat (2 * c)) x [qrows]
  = Some [zip_with set_q_star x qrows].
Proof.
  intros Hx Hq Hm. unfold attend.
  rewrite (view3_sets _ _ _ Hq). simpl obind.
  rewrite (scores_sets _ _ _ _ _ Hx Hq). simpl obind.
  pose proof (softmax_shape _ _ _ (scores_shape _ _ _ _ _ Hx Hq)) as Ha.
  rewrite (view3_elements _ _ _ Ha). simpl obind.
  rewrite (weighted_sets _ _ _ _ _ Ha Hx). simpl obind.
  destruct Hx as [Hb Hx], Hq as [Hqb Hqc].
  rewrite cat_sets.
  2:{ rewrite length_zip_with; rewrite (proj1 Ha); congruence. }
  simpl obind.
  assert (E : zip_with (fun qs mx => qs ++ sum_rows mx) qrows
                (zip_with (zip_with scale)
                   (softmax (zip_with set_scores x qrows)) x)
              = zip_with set_q_star x qrows).
  { unfold softmax. rewrite map_zip_with, zip_with_reuse_l, zip_with_reuse_r.
    reflexivity. }
  rewrite E. apply view3_sequence. split.
  - rewrite length_zip_with; congruence.
  - apply Forall_zip_with. intros xs qs Hin.
    destruct (in_combine_Forall Hx Hqc Hin) as [Hxs Hqs].
    unfold set_q_star. rewrite length_app, Hqs.
    rewrite (length_set_readout m c); [lia|exact Hxs|].
    destruct Hm as [->|Hm]; [destruct Hin|exact Hm].
Qed.
End PerSet.

(* --------------------------------------------------------------- *)
(** ** The batching primitive *)

Section Batching.
Context {F : Type} {SF : Scalar F}.

Lemma in_members (x : Tensor2 F) (batch : list nat) (s : nat) (r : list F) :
  In r (members x batch s) -> In r x.
Proof.
  unfold members. rewrite in_map_iff. intros [[r' k] [<- Hin]].
  apply filter_In in Hin. destruct Hin as [Hin _].
  now apply in_combine_l in Hin.
Qed.

Lemma members_rows (c : nat) (x : Tensor2 F) (batch : list nat) (s : nat) :
  Forall (fun r => length r = c) x ->
  Forall (fun r => length r = c) (members x batch s).
Proof.
  rewrite !Forall_forall. intros H r Hr. eapply H, in_members, Hr.
Qed.

Lemma list_max_bound (l : list nat) (k : nat) : In k l -> k <= list_max l.
Proof.
  intros Hin. pose proof (proj1 (list_max_le l (list_max l)) (le_n _)) as H.
  rewrite Forall_forall in H. now apply H.
Qed.

Lemma set_size_bound (x : Tensor2 F) (batch : list nat) (xs : Tensor2 F) :
  In xs (sets_of x batch) -> length xs <= max_set_size x batch.
Proof. intros Hin. apply list_max_bound. now apply in_map. Qed.

Lemma pad_shape (m c : nat) (rows : Tensor2 F) :
  length rows <= m -> Forall (fun r => length r = c) rows ->
  has_shape2 m c (pad m c rows).
Proof.
  intros Hle Hc. unfold pad. split.
  - rewrite length_app, repeat_length. lia.
  - apply Forall_app. split; [exact Hc|].
    apply Forall_forall. intros r Hr. apply repeat_spec in Hr. subst r.
    apply repeat_length.
Qed.

Lemma num_sets_cons (b : nat) (batch : list nat) :
  num_sets (b :: batch) = Nat.max (S b) (num_sets batch).
Proof. reflexivity. Qed.

Lemma num_sets_last (batch : list nat) :
  num_sets batch <> 0 -> In (pred (num_sets batch)) batch.
Proof.
  induction batch as [|b batch IH]; [simpl; congruence|]. intros _.
  rewrite num_sets_cons.
  destruct (Nat.max_spec (S b) (num_sets batch)) as [[Hlt ->]|[Hle ->]].
  - right. apply IH. lia.
  - now left.
Qed.

Lemma members_inhabited (x : Tensor2 F) (batch : list nat) (k : nat) :
  length x = length batch -> In k batch -> members x batch k <> [].
Proof.
  revert batch. unfold members.
  induction x as [|r x IH]; intros [|b batch] Hlen Hin; simpl in *;
    try discriminate; [tauto|].
  destruct (Nat.eqb_spec b k) as [E|E]; simpl; [discriminate|].
  destruct Hin as [->|Hin]; [congruence|]. apply IH; [lia|exact Hin].
Qed.

Lemma max_set_size_pos (x : Tensor2 F) (batch : list nat) :
  length x = length batch -> num_sets batch <> 0 -> 0 < max_set_size x batch.
Proof.
  intros Hlen Hn. pose proof (num_sets_last batch Hn) as Hin.
  pose proof (members_inhabited x batch _ Hlen Hin) as Hne.
  assert (Hs : In (members x batch (pred (num_sets batch))) (sets_of x batch)).
  { unfold sets_of. apply in_map, in_seq. lia. }
  apply set_size_bound in Hs.
  destruct (members x batch (pred (num_sets batch))); [congruence|].
  simpl in Hs. lia.
Qed.

Lemma to_batch_padded (x : Tensor2 F) (batch : list nat) :
  length x = length batch ->
  to_batch x batch
  = Some (padded x batch, map (@length _) (sets_of x batch)).
Proof.
  intros Hlen. unfold to_batch. now rewrite Hlen, Nat.eqb_refl.
Qed.

Lemma padded_shape (c : nat) (x : Tensor2 F) (batch : list nat) :
  length x = length batch -> Forall (fun r => length r = c) x ->
  has_shape3 (num_sets batch) (max_set_size x batch) c (padded x batch).
Proof.
  intros Hlen Hc. unfold padded. split.
  - unfold sets_of. now rewrite !length_map, length_seq.
  - rewrite Forall_map, Forall_forall. intros xs Hxs.
    assert (Hw : length (hd [] x) = c).
    { destruct x as [|r x].
      - destruct batch; [|discriminate]. destruct Hxs.
      - inversion Hc; subst. reflexivity. }
    rewrite Hw. apply pad_shape; [now apply set_size_bound|].
    unfold sets_of in Hxs. apply in_map_iff in Hxs.
    destruct Hxs as [s [<- _]]. now apply members_rows.
Qed.

Lemma size3_shape (b m c : nat) (x : Tensor3 F) :
  has_shape3 b m c x -> x = [] \/ 0 < m ->
  fst (fst (size3 x)) = b /\
  has_shape3 b (snd (fst (size3 x))) c x /\
  (x = [] \/ 0 < snd (fst (size3 x))).
Proof.
  intros [Hb Hx] Hm. unfold size3. simpl. split; [exact Hb|].
  destruct x as [|xs x]; simpl.
  - split; [split; [exact Hb|constructor]|now left].
  - pose proof (Forall_inv Hx) as Hs. rewrite (proj1 Hs).
    split; [split; [exact Hb|exact Hx]|]. right.
    destruct Hm as [Hm|Hm]; [discriminate|exact Hm].
Qed.

Lemma padded_inhabited (x : Tensor2 F) (batch : list nat) :
  length x = length batch ->
  padded x batch = [] \/ 0 < max_set_size x batch.
Proof.
  intros Hlen. destruct (Nat.eq_dec (num_sets batch) 0) as [E|E].
  - left. unfold padded, sets_of. now rewrite E.
  - right. now apply max_set_size_pos.
Qed.
Lemma length_padded (x : Tensor2 F) (batch : list nat) :
  length (padded x batch) = num_sets batch.
Proof. unfold padded, sets_of. now rewrite !length_map, length_seq. Qed.
End Batching.

(* --------------------------------------------------------------- *)
(** ** Shapes of the loop state *)

Section Zeros.
Context {F : Type} {SF : Scalar F}.

Lemma zeros2_shape (b c : nat) : has_shape2 b c (zeros2 (F:=F) b c).
Proof.
  unfold zeros2. split; [apply repeat_length|].
  apply Forall_forall. intros r Hr. apply repeat_spec in Hr. subst r.
  apply repeat_length.
Qed.

Lemma zeros3_shape (a b c : nat) : has_shape3 a b c (zeros3 (F:=F) a b c).
Proof.
  unfold zeros3. split; [apply repeat_length|].
  apply Forall_forall. intros r Hr. apply repeat_spec in Hr. subst r.
  apply zeros2_shape.
Qed.

Lemma new_zeros3_nat (a b c : nat) :
  new_zeros3 (Z.of_nat a) (Z.of_nat b) (Z.of_nat c) = Some (zeros3 a b c).
Proof. unfold new_zeros3. now rewrite !dim_of_nat. Qed.

Lemma shape3_single (b c : nat) (t : Tensor3 F) :
  has_shape3 1 b c t -> exists rows, t = [rows] /\ has_shape2 b c rows.
Proof.
  intros [Hlen Hall]. destruct t as [|rows [|]]; try discriminate.
  exists rows. split; [reflexivity|]. exact (Forall_inv Hall).
Qed.

Lemma single_shape3 (b c : nat) (rows : Tensor2 F) :
  has_shape2 b c rows -> has_shape3 1 b c [rows].
Proof. intros H. split; [reflexivity|]. now constructor. Qed.

Lemma q_star_shape (b m c : nat) (x : Tensor3 F) (qrows : Tensor2 F) :
  has_shape3 b m c x -> has_shape2 b c qrows -> x = [] \/ 0 < m ->
  has_shape2 b (2 * c) (zip_with set_q_star x qrows).
Proof.
  intros [Hb Hx] [Hqb Hqc] Hm. split.
  - rewrite length_zip_with; congruence.
  - apply Forall_zip_with. intros xs qs Hin.
    destruct (in_combine_Forall Hx Hqc Hin) as [Hxs Hqs].
    unfold set_q_star. rewrite length_app, Hqs.
    rewrite (length_set_readout m c); [lia|exact Hxs|].
    destruct Hm as [->|Hm]; [destruct Hin|exact Hm].
Qed.
End Zeros.

(* --------------------------------------------------------------- *)
(** ** A call of forward *)

Section Run.
Context {F : Type} {SF : Scalar F} {L : Type} {RL : Recurrent F L}.

Lemma called_0 (w : World L) : called 0 w = w.
Proof. destruct w. unfold called. simpl. now rewrite Nat.add_0_r. Qed.

Lemma step_ok (layers b m c : nat) (x : Tensor3 F) (i : Z)
  (st : Tensor3 F * (Tensor3 F * Tensor3 F)) (w : World L) :
  in_channels (self w) = Z.of_nat c ->
  out_channels (self w) = Z.of_nat (2 * c) ->
  has_shape3 b m c x -> x = [] \/ 0 < m ->
  lstm_shapes (lstm (self w)) layers b c ->
  state_ok layers b c st ->
  exists st', step b m x i st w = (Some st', called 1 w) /\
              state_ok layers b c st'.
Proof.
  intros Hic Hoc Hx Hm Hl (Hq & Hh & Hc).
  destruct st as [q_star [h0 c0]]. simpl in Hq, Hh, Hc.
  destruct (Hl q_star h0 c0 Hq Hh Hc) as (q' & h1 & c1 & E & Hq' & Hh1 & Hc1).
  destruct (shape3_single _ _ _ Hq') as (qrows & -> & Hrows).
  exists ([zip_with set_q_star x qrows], (h1, c1)). split.
  - unfold step, bind, call_lstm, get_self, lift, ret. rewrite E.
    cbn [self]. rewrite Hic, Hoc.
    rewrite (attend_sets _ _ _ _ _ Hx Hrows Hm).
    unfold called. now rewrite Nat.add_1_r.
  - split; [|split; assumption]. simpl.
    apply single_shape3. now apply q_star_shape with (m := m).
Qed.

Lemma loop_ok (layers b m c : nat) (x : Tensor3 F) (l : list Z) :
  has_shape3 b m c x -> x = [] \/ 0 < m ->
  forall st w,
    in_channels (self w) = Z.of_nat c ->
    out_channels (self w) = Z.of_nat (2 * c) ->
    lstm_shapes (lstm (self w)) layers b c ->
    state_ok layers b c st ->
    exists st', for_each (step b m x) l st w
                = (Some st', called (length l) w) /\
                state_ok layers b c st'.
Proof.
  intros Hx Hm.
  induction l as [|i l IH]; intros st w Hic Hoc Hl Hst.
  - exists st. simpl. unfold ret. now rewrite called_0.
  - destruct (step_ok _ _ _ _ _ i _ w Hic Hoc Hx Hm Hl Hst)
      as (st1 & E1 & Hst1).
    destruct (IH st1 (called 1 w) Hic Hoc Hl Hst1) as (st2 & E2 & Hst2).
    exists st2. split; [|exact Hst2].
    simpl. unfold bind at 1. rewrite E1, E2. f_equal.
    unfold called. simpl. f_equal. lia.
Qed.

Lemma length_range (n : Z) : length (range n) = Z.to_nat n.
Proof. unfold range. now rewrite length_map, length_seq. Qed.

Lemma bind_get_self {A : Type} (k : Set2Set L -> M L A) (w : World L) :
  bind get_self k w = k (self w) w.
Proof. reflexivity. Qed.

Lemma bind_lift {A B : Type} (o : option A) (k : A -> M L B) (w : World L) :
  bind (lift o) k w = match o with Some a => k a w | None => (None, w) end.
Proof. reflexivity. Qed.

Lemma bind_run {A B : Type} (m : M L A) (k : A -> M L B) (w : World L) :
  bind m k w
  = match m w with
    | (Some a, w') => k a w'
    | (None, w') => (None, w')
    end.
Proof. reflexivity. Qed.

(** A well-formed call runs to completion. *)
Lemma forward_run (w : World L) (x : Tensor2 F) (batch : list nat)
  (layers c : nat) :
  length x = length batch -> Forall (fun r => length r = c) x ->
  in_channels (self w) = Z.of_nat c ->
  out_channels (self w) = Z.of_nat (2 * c) ->
  num_layers (self w) = Z.of_nat layers ->
  lstm_shapes (lstm (self w)) layers (num_sets batch) c ->
  exists out,
    forward x batch w
    = (Some out, called (Z.to_nat (processing_steps (self w))) w) /\
    has_shape2 (num_sets batch) (2 * c) out.
Proof.
  intros Hlen Hrows Hic Hoc Hnl Hl.
  pose proof (padded_shape c x batch Hlen Hrows) as Hp.
  destruct (size3_shape _ _ _ _ Hp (padded_inhabited x batch Hlen))
    as (Hb & Hx & Hm).
  unfold size3 in Hb, Hx, Hm. cbn [fst snd] in Hb, Hx, Hm.
  unfold forward. rewrite bind_lift, (to_batch_padded x batch Hlen).
  cbn [fst]. unfold size3. cbv iota beta. rewrite Hb.
  rewrite bind_get_self, Hnl, Hic, Hoc.
  change 1%Z with (Z.of_nat 1). rewrite !new_zeros3_nat, !bind_lift.
  rewrite bind_get_self.
  assert (Hst : state_ok layers (num_sets batch) c
                  (zeros3 1 (num_sets batch) (2 * c),
                   (zeros3 layers (num_sets batch) c,
                    zeros3 layers (num_sets batch) c))).
  { split; [|split]; apply zeros3_shape. }
  destruct (loop_ok layers _ _ c (padded x batch)
              (range (processing_steps (self w))) Hx Hm _ w Hic Hoc Hl Hst)
    as ([q_star [h1 c1]] & E & Hq & _).
  unfold bind at 1. rewrite E, length_range. cbn [fst] in Hq.
  destruct (shape3_single _ _ _ Hq) as (rows & -> & Hout).
  exists rows. split; [|exact Hout].
  rewrite bind_get_self. unfold lift. cbn [self called]. rewrite Hoc.
  now rewrite (view2_output _ _ _ Hout).
Qed.
(** Every round invokes the recurrent step once, whether it then goes on or
    raises. *)
Lemma step_world (b m : nat) (x : Tensor3 F) (i : Z)
  (st : Tensor3 F * (Tensor3 F * Tensor3 F)) (w : World L) :
  snd (step b m x i st w) = called 1 w.
Proof.
  unfold step, bind, call_lstm, get_self, lift, ret, called.
  destruct st as [q_star h]. rewrite Nat.add_1_r.
  destruct (lstm_forward (lstm (self w)) q_star h) as [[q h']|];
    [|reflexivity].
  cbn [self].
  destruct (attend b m (in_channels (self w)) (out_channels (self w)) x q);
    reflexivity.
Qed.

Lemma loop_world (b m : nat) (x : Tensor3 F) (l : list Z) :
  forall st w,
    exists n, snd (for_each (step b m x) l st w) = called n w /\
              n <= length l /\
              (fst (for_each (step b m x) l st w) <> None -> n = length l).
Proof.
  induction l as [|i l IH]; intros st w.
  - exists 0. cbn. rewrite called_0. repeat split; reflexivity || lia.
  - cbn [for_each]. rewrite bind_run.
    pose proof (step_world b m x i st w) as Hw.
    destruct (step b m x i st w) as [[st1|] w1]; cbn [snd] in Hw; subst w1.
    + destruct (IH st1 (called 1 w)) as (n & E & Hle & Hall).
      exists (S n). rewrite E. split; [|split].
      * unfold called. cbn. f_equal. lia.
      * cbn. lia.
      * intros Hsome. cbn. f_equal. now apply Hall.
    + exists 1. cbn [fst snd length]. split; [reflexivity|].
      split; [lia|]. intros Hsome. now elim Hsome.
Qed.

(** A call invokes the recurrent step at most once per processing step, and
    once per processing step when it returns. *)
Lemma forward_world (w : World L) (x : Tensor2 F) (batch : list nat) :
  exists n, snd (forward x batch w) = called n w /\
            n <= Z.to_nat (processing_steps (self w)) /\
            (fst (forward x batch w) <> None ->
             n = Z.to_nat (processing_steps (self w))).
Proof.
  assert (Hraise : forall A (r : option A * World L),
             r = (None, w) ->
             exists n, snd r = called n w /\
                       n <= Z.to_nat (processing_steps (self w)) /\
                       (fst r <> None ->
                        n = Z.to_nat (processing_steps (self w)))).
  { intros A r ->. exists 0. cbn. rewrite called_0.
    split; [reflexivity|]. split; [lia|]. intros H. now elim H. }
  unfold forward. rewrite bind_lift.
  destruct (to_batch x batch) as [[xp sizes]|]; [|now apply Hraise].
  cbn [fst]. unfold size3. cbv iota beta. rewrite bind_get_self, bind_lift.
  destruct (new_zeros3 (num_layers (self w)) (Z.of_nat (length xp))
              (in_channels (self w))) as [h0|]; [|now apply Hraise].
  rewrite bind_lift, bind_lift.
  destruct (new_zeros3 1 (Z.of_nat (length xp)) (out_channels (self w)))
    as [q_star|]; [|now apply Hraise].
  rewrite bind_get_self, bind_run.
  destruct (loop_world (length xp) (length (hd [] xp)) xp
              (range (processing_steps (self w))) (q_star, (h0, h0)) w)
    as (n & E & Hle & Hall).
  rewrite length_range in Hle, Hall.
  destruct (for_each (step (length xp) (length (hd [] xp)) xp)
              (range (processing_steps (self w))) (q_star, (h0, h0)) w)
    as [[[q_star' h']|] w1]; cbn [fst snd] in E, Hall; subst w1.
  - rewrite bind_get_self. unfold lift. cbn [fst snd].
    exists n. split; [reflexivity|]. split; [exact Hle|].
    intros _. apply Hall. discriminate.
  - exists n. cbn [fst snd]. split; [reflexivity|]. split; [exact Hle|].
    intros H. now elim H.
Qed.
End Run.

(* --------------------------------------------------------------- *)
(** ** What forward reads and writes *)

Section Frame.
Context {F : Type} {SF : Scalar F} {L : Type} {RL : Recurrent F L}.

Lemma reads_self_ret {A : Type} (a : A) : reads_self (@ret L A a).
Proof. intros w. split; [reflexivity|]. intros w' _. reflexivity. Qed.

Lemma reads_self_lift {A : Type} (o : option A) : reads_self (@lift L A o).
Proof. intros w. split; [reflexivity|]. intros w' _. reflexivity. Qed.

Lemma reads_self_get_self : reads_self (@get_self L).
Proof.
  intros w. split; [reflexivity|]. intros w' E. unfold get_self. simpl.
  now rewrite E.
Qed.

Lemma reads_self_call_lstm q_star h : reads_self (call_lstm q_star h).
Proof.
  intros w. split; [reflexivity|]. intros w' E. unfold call_lstm. simpl.
  now rewrite E.
Qed.

Lemma reads_self_bind {A B : Type} (m : M L A) (k : A -> M L B) :
  reads_self m -> (forall a, reads_self (k a)) -> reads_self (bind m k).
Proof.
  intros Hm Hk w. destruct (Hm w) as [Hs Hr]. unfold bind. split.
  - destruct (m w) as [[a|] w1]; simpl in *; [|exact Hs].
    destruct (Hk a w1) as [Hs1 _]. congruence.
  - intros w' E. specialize (Hr w' E). destruct (Hm w') as [Hs' _].
    destruct (m w) as [[a|] w1], (m w') as [[a'|] w1']; simpl in *;
      try discriminate; [|reflexivity].
    injection Hr as ->. apply (Hk a w1). congruence.
Qed.

Lemma reads_self_for_each {I S : Type} (body : I -> S -> M L S)
  (l : list I) :
  (forall i s, reads_self (body i s)) ->
  forall s, reads_self (for_each body l s).
Proof.
  intros Hbody. induction l as [|i l IH]; intros s; simpl.
  - apply reads_self_ret.
  - apply reads_self_bind; [apply Hbody|exact IH].
Qed.

Lemma reads_self_step b m x i st : reads_self (step b m x i st).
Proof.
  unfold step. destruct st as [q_star h].
  apply reads_self_bind; [apply reads_self_call_lstm|]. intros [q h'].
  apply reads_self_bind; [apply reads_self_get_self|]. intros s.
  apply reads_self_bind; [apply reads_self_lift|]. intros q'.
  apply reads_self_ret.
Qed.

End Frame.

(* --------------------------------------------------------------- *)
(** ** No processing step *)

Section NoSteps.
Context {F : Type} {SF : Scalar F} {L : Type} {RL : Recurrent F L}.

Lemma range_nonpos (n : Z) : (n <= 0)%Z -> range n = [].
Proof.
  intros Hn. unfold range. replace (Z.to_nat n) with 0 by lia. reflexivity.
Qed.

Lemma forward_no_steps (w : World L) (x : Tensor2 F) (batch : list nat)
  (layers c2 : nat) :
  (processing_steps (self w) <= 0)%Z ->
  length x = length batch ->
  (0 <= in_channels (self w))%Z ->
  out_channels (self w) = Z.of_nat c2 ->
  num_layers (self w) = Z.of_nat layers ->
  forward x batch w = (Some (zeros2 (num_sets batch) c2), w).
Proof.
  intros Hsteps Hlen Hic Hoc Hnl.
  unfold forward. rewrite bind_lift, (to_batch_padded x batch Hlen).
  cbn [fst]. unfold size3. cbv iota beta.
  rewrite length_padded, bind_get_self, Hnl, Hoc.
  rewrite <- (Z2Nat.id (in_channels (self w))) by exact Hic.
  change 1%Z with (Z.of_nat 1). rewrite !new_zeros3_nat, !bind_lift.
  rewrite bind_get_self, (range_nonpos _ Hsteps).
  unfold bind at 1. cbn [for_each ret]. rewrite bind_get_self.
  unfold lift. rewrite Hoc.
  change (zeros3 1 (num_sets batch) c2)
    with [zeros2 (F:=F) (num_sets batch) c2].
  now rewrite (view2_output _ _ _ (zeros2_shape (num_sets batch) c2)).
Qed.
End NoSteps.

Lemma nth_map_seq {A : Type} (f : nat -> A) (n s : nat) (d : A) :
  s < n -> nth s (map f (seq 0 n)) d = f s.
Proof.
  intros Hs. rewrite (nth_indep _ d (f 0)) by now rewrite length_map, length_seq.
  rewrite (map_nth f (seq 0 n) 0 s), seq_nth by exact Hs. reflexivity.
Qed.

Lemma nth_map_in {A B : Type} (g : A -> B) (l : list A) (j : nat) (d : A) (d' : B) :
  j < length l -> nth j (map g l) d' = g (nth j l d).
Proof.
  intros Hj. rewrite (nth_indep _ d' (g d)) by now rewrite length_map.
  apply map_nth.
Qed.

Lemma nth_zip_with {A B C : Type} (g : A -> B -> C) (l1 : list A) (l2 : list B)
  (s : nat) (d1 : A) (d2 : B) (d : C) :
  s < length l1 -> s < length l2 ->
  nth s (zip_with g l1 l2) d = g (nth s l1 d1) (nth s l2 d2).
Proof.
  revert l2 s. induction l1 as [|a l1 IH]; intros [|b l2] [|s] H1 H2;
    simpl in *; try lia; [reflexivity|].
  apply IH; lia.
Qed.

(* --------------------------------------------------------------- *)
(** ** Sums of real numbers *)

Section RealSums.
Open Scope R_scope.

Lemma sum1_cons (a : R) (l : list R) : sum1 (a :: l) = a + sum1 l.
Proof. reflexivity. Qed.

Lemma sum1_app (l l' : list R) : sum1 (l ++ l') = sum1 l + sum1 l'.
Proof.
  induction l as [|a l IH]; cbn [app].
  - change (sum1 (F:=R) []) with 0. lra.
  - rewrite !sum1_cons, IH. lra.
Qed.

Lemma sum1_perm (l l' : list R) : Permutation l l' -> sum1 l = sum1 l'.
Proof.
  induction 1 as [|a l l' _ IH|a b l|l l' l'' _ IH1 _ IH2].
  - reflexivity.
  - rewrite !sum1_cons, IH. reflexivity.
  - rewrite !sum1_cons. lra.
  - now rewrite IH1.
Qed.

Lemma sum1_repeat (a : R) (n : nat) : sum1 (repeat a n) = INR n * a.
Proof.
  induction n as [|n IH].
  - simpl. change (sum1 (F:=R) []) with 0. lra.
  - rewrite S_INR. cbn [repeat]. rewrite sum1_cons, IH. lra.
Qed.

Lemma sum1_scaled (d : R) (l : list R) :
  sum1 (map (fun y => s_div y d) l) = sum1 l / d.
Proof.
  induction l as [|a l IH]; cbn [map].
  - change (sum1 (F:=R) []) with 0. unfold Rdiv. lra.
  - rewrite !sum1_cons, IH. simpl s_div. unfold Rdiv. lra.
Qed.

Lemma sum1_exp_pos (l : list R) : l <> [] -> 0 < sum1 (map s_exp l).
Proof.
  assert (H0 : forall l' : list R, 0 <= sum1 (map s_exp l')).
  { induction l' as [|a l' IH]; cbn [map].
    - change (sum1 (F:=R) []) with 0. lra.
    - rewrite sum1_cons. change (s_exp a) with (exp a).
      pose proof (exp_pos a). lra. }
  destruct l as [|a l]; [congruence|]. intros _. cbn [map].
  rewrite sum1_cons. change (s_exp a) with (exp a).
  pose proof (exp_pos a). pose proof (H0 l). lra.
Qed.

(** The weights of a set add up to one. *)
Lemma softmax1_total (v : list R) : v <> [] -> sum1 (softmax1 v) = 1.
Proof.
  intros Hv. unfold softmax1. rewrite sum1_scaled.
  pose proof (sum1_exp_pos v Hv). field. lra.
Qed.

Lemma dot_zero_row (c : nat) (qs : list R) : dot (zeros1 c) qs = 0.
Proof.
  unfold dot, zeros1. revert qs.
  induction c as [|c IH]; intros [|q qs]; try reflexivity.
  cbn [repeat]. rewrite zip_with_cons, sum1_cons, IH. simpl. lra.
Qed.

Lemma set_scores_pad (m c : nat) (rows : list (list R)) (qs : list R) :
  set_scores (pad m c rows) qs
  = set_scores rows qs ++ repeat 0 (m - length rows)%nat.
Proof.
  unfold set_scores, pad. rewrite map_app. f_equal.
  induction (m - length rows)%nat as [|k IH]; [reflexivity|].
  simpl. now rewrite dot_zero_row, IH.
Qed.
End RealSums.

(* --------------------------------------------------------------- *)
(** ** Rows and counts of the padded tensor *)

Section BatchingInv.
Context {F : Type} {SF : Scalar F}.

Lemma to_batch_inv (x : Tensor2 F) (batch : list nat) xp sizes :
  to_batch x batch = Some (xp, sizes) ->
  length x = length batch /\ xp = padded x batch /\
  sizes = map (@length _) (sets_of x batch).
Proof.
  unfold to_batch. destruct (Nat.eqb_spec (length x) (length batch)) as [E|E];
    [|discriminate].
  intros [= <- <-]. repeat split; assumption || reflexivity.
Qed.

Lemma nth_padded (x : Tensor2 F) (batch : list nat) (s : nat) :
  s < num_sets batch ->
  nth s (padded x batch) []
  = pad (max_set_size x batch) (length (hd [] x)) (members x batch s).
Proof.
  intros Hs. unfold padded, sets_of. rewrite map_map.
  exact (nth_map_seq
           (fun k => pad (max_set_size x batch) (length (hd [] x))
                       (members x batch k)) _ _ _ Hs).
Qed.

Lemma nth_sizes (x : Tensor2 F) (batch : list nat) (s : nat) :
  s < num_sets batch ->
  nth s (map (@length _) (sets_of x batch)) 0 = length (members x batch s).
Proof.
  intros Hs. unfold sets_of. rewrite map_map.
  exact (nth_map_seq (fun k => length (members x batch k)) _ _ _ Hs).
Qed.

Lemma width_of_rows (c : nat) (x : Tensor2 F) :
  Forall (fun r => length r = c) x -> x <> [] -> length (hd [] x) = c.
Proof. intros H Hne. destruct x; [congruence|]. exact (Forall_inv H). Qed.
End BatchingInv.

Lemma zip_with_map_same {A B C : Type} (g : B -> A -> C) (h : A -> B)
  (l : list A) :
  zip_with g (map h l) l = map (fun a => g (h a) a) l.
Proof.
  induction l as [|a l IH]; [reflexivity|].
  cbn [map]. now rewrite zip_with_cons, IH.
Qed.

(* --------------------------------------------------------------- *)
(** ** The order of the members of a set *)

Section Order.
Open Scope R_scope.

Lemma denominator_perm (xs xs' : list (list R)) (qs : list R) :
  Permutation xs xs' ->
  sum1 (map s_exp (set_scores xs qs)) = sum1 (map s_exp (set_scores xs' qs)).
Proof.
  intros H. apply sum1_perm. unfold set_scores.
  now apply Permutation_map, Permutation_map.
Qed.

Lemma weighted_rows (xs : list (list R)) (qs : list R) :
  zip_with scale (set_weights xs qs) xs
  = map (fun xj => scale (s_div (s_exp (dot xj qs))
                            (sum1 (map s_exp (set_scores xs qs)))) xj) xs.
Proof.
  unfold set_weights, softmax1, set_scores.
  rewrite !map_map. apply zip_with_map_same.
Qed.

Lemma sum_rows_perm (c : nat) (m m' : list (list R)) :
  Forall (fun r => length r = c) m -> Permutation m m' ->
  sum_rows m = sum_rows m'.
Proof.
  intros Hc Hp. unfold sum_rows.
  assert (Hc' : Forall (fun r => length r = c) m').
  { rewrite Forall_forall in *. intros r Hr. apply Hc.
    eapply Permutation_in; [symmetry; exact Hp|exact Hr]. }
  assert (Hw : length (hd [] m) = length (hd [] m')).
  { destruct m as [|r m], m' as [|r' m'].
    - reflexivity.
    - apply Permutation_nil in Hp. discriminate.
    - symmetry in Hp. apply Permutation_nil in Hp. discriminate.
    - simpl. rewrite (Forall_inv Hc), (Forall_inv Hc'). reflexivity. }
  rewrite Hw. apply map_ext. intros k. apply sum1_perm.
  unfold column. now apply Permutation_map.
Qed.

Lemma set_readout_perm (c : nat) (xs xs' : list (list R)) (qs : list R) :
  Forall (fun r => length r = c) xs -> Permutation xs xs' ->
  set_readout xs qs = set_readout xs' qs.
Proof.
  intros Hc Hp. unfold set_readout. rewrite !weighted_rows.
  rewrite <- (denominator_perm xs xs' qs Hp).
  apply (sum_rows_perm c).
  - rewrite Forall_map. eapply Forall_impl; [|exact Hc].
    simpl. intros r Hr. unfold scale. now rewrite length_map.
  - now apply Permutation_map.
Qed.

Lemma pad_perm (m c : nat) (rows rows' : list (list R)) :
  Permutation rows rows' -> Permutation (pad m c rows) (pad m c rows').
Proof.
  intros Hp. unfold pad. rewrite (Permutation_length Hp).
  now apply Permutation_app_tail.
Qed.

Lemma max_set_size_perm (x x' : list (list R)) (batch : list nat) :
  (forall t, Permutation (members x batch t) (members x' batch t)) ->
  max_set_size x batch = max_set_size x' batch.
Proof.
  intros H. unfold max_set_size, sets_of. rewrite !map_map. f_equal.
  apply map_ext. intros t. apply Permutation_length, H.
Qed.

(** Reordering the members of the sets does not change a round. *)
Lemma q_star_perm (c : nat) (x x' : list (list R)) (batch : list nat)
  (qrows : list (list R)) :
  length x = length batch -> length x' = length batch ->
  Forall (fun r => length r = c) x -> Forall (fun r => length r = c) x' ->
  (forall t, Permutation (members x batch t) (members x' batch t)) ->
  zip_with set_q_star (padded x' batch) qrows
  = zip_with set_q_star (padded x batch) qrows.
Proof.
  intros Hlen Hlen' Hc Hc' Hp. unfold padded, sets_of.
  rewrite !map_map, !zip_with_map_l.
  destruct batch as [|b0 batch].
  { reflexivity. }
  assert (Hx : x <> []) by (destruct x; [discriminate|congruence]).
  assert (Hx' : x' <> []) by (destruct x'; [discriminate|congruence]).
  rewrite (width_of_rows c x Hc Hx), (width_of_rows c x' Hc' Hx').
  rewrite <- (max_set_size_perm x x' _ Hp).
  apply zip_with_ext_in. intros t qs _. unfold set_q_star. f_equal.
  symmetry. apply (set_readout_perm c).
  - apply Forall_app. split; [now apply members_rows|].
    apply Forall_forall. intros r Hr. apply repeat_spec in Hr. subst r.
    apply repeat_length.
  - apply pad_perm, Hp.
Qed.
End Order.

(* --------------------------------------------------------------- *)
(** ** Rounds on tensors with the same sets *)

Section SameRounds.
Context {F : Type} {SF : Scalar F} {L : Type} {RL : Recurrent F L}.

Lemma step_sets (b m c : nat) (x : Tensor3 F) (i : Z)
  (q_star : Tensor3 F) (h h' : Tensor3 F * Tensor3 F) (qrows : Tensor2 F)
  (w : World L) :
  in_channels (self w) = Z.of_nat c ->
  out_channels (self w) = Z.of_nat (2 * c) ->
  has_shape3 b m c x -> x = [] \/ 0 < m ->
  lstm_forward (lstm (self w)) q_star h = Some ([qrows], h') ->
  has_shape2 b c qrows ->
  step b m x i (q_star, h) w
  = (Some ([zip_with set_q_star x qrows], h'), called 1 w).
Proof.
  intros Hic Hoc Hx Hm E Hq.
  unfold step, bind, call_lstm, get_self, lift, ret. rewrite E.
  cbn [self]. rewrite Hic, Hoc.
  rewrite (attend_sets _ _ _ _ _ Hx Hq Hm).
  unfold called. now rewrite Nat.add_1_r.
Qed.

Lemma loop_same (layers b m c : nat) (x x' : Tensor3 F) (l : list Z) :
  has_shape3 b m c x -> x = [] \/ 0 < m ->
  has_shape3 b m c x' -> x' = [] \/ 0 < m ->
  (forall qrows, has_shape2 b c qrows ->
                 zip_with set_q_star x' qrows = zip_with set_q_star x qrows) ->
  forall st w,
    in_channels (self w) = Z.of_nat c ->
    out_channels (self w) = Z.of_nat (2 * c) ->
    lstm_shapes (lstm (self w)) layers b c ->
    state_ok layers b c st ->
    for_each (step b m x') l st w = for_each (step b m x) l st w.
Proof.
  intros Hx Hm Hx' Hm' Hsame.
  induction l as [|i l IH]; intros st w Hic Hoc Hl Hst; [reflexivity|].
  destruct (step_ok _ _ _ _ _ i _ w Hic Hoc Hx Hm Hl Hst)
    as (st1 & E1 & Hst1).
  assert (E1' : step b m x' i st w = (Some st1, called 1 w)).
  { destruct st as [q_star [h0 c0]]. destruct Hst as (Hq & Hh & Hc).
    destruct (Hl q_star h0 c0 Hq Hh Hc)
      as (q' & h1 & c1 & E & Hq' & _).
    destruct (shape3_single _ _ _ Hq') as (qrows & -> & Hrows).
    rewrite (step_sets b m c x i _ _ _ _ w Hic Hoc Hx Hm E Hrows) in E1.
    rewrite (step_sets b m c x' i _ _ _ _ w Hic Hoc Hx' Hm' E Hrows).
    now rewrite (Hsame qrows Hrows). }
  simpl. unfold bind. rewrite E1, E1'. now apply IH.
Qed.

Lemma forward_same (w : World L) (x x' : Tensor2 F) (batch : list nat)
  (layers c : nat) :
  length x = length batch -> length x' = length batch ->
  Forall (fun r => length r = c) x -> Forall (fun r => length r = c) x' ->
  in_channels (self w) = Z.of_nat c ->
  out_channels (self w) = Z.of_nat (2 * c) ->
  num_layers (self w) = Z.of_nat layers ->
  lstm_shapes (lstm (self w)) layers (num_sets batch) c ->
  max_set_size x' batch = max_set_size x batch ->
  (forall qrows, has_shape2 (num_sets batch) c qrows ->
                 zip_with set_q_star (padded x' batch) qrows
                 = zip_with set_q_star (padded x batch) qrows) ->
  forward x' batch w = forward x batch w.
Proof.
  intros Hlen Hlen' Hrows Hrows' Hic Hoc Hnl Hl Hmax Hsame.
  pose proof (padded_shape c x batch Hlen Hrows) as Hp.
  pose proof (padded_shape c x' batch Hlen' Hrows') as Hp'.
  rewrite Hmax in Hp'.
  pose proof (padded_inhabited x batch Hlen) as Hi.
  pose proof (padded_inhabited x' batch Hlen') as Hi'.
  rewrite Hmax in Hi'.
  assert (Hw : length (hd [] (padded x' batch))
               = length (hd [] (padded x batch))).
  { destruct Hp as [Hb Hall], Hp' as [Hb' Hall'].
    destruct (padded x batch) as [|xs r], (padded x' batch) as [|xs' r'];
      simpl in *; try lia.
    rewrite (proj1 (Forall_inv Hall)), (proj1 (Forall_inv Hall')).
    reflexivity. }
  destruct (size3_shape _ _ _ _ Hp Hi) as (Hb & Hx & Hm).
  destruct (size3_shape _ _ _ _ Hp' Hi') as (_ & Hx' & Hm').
  unfold size3 in Hb, Hx, Hm, Hx', Hm'. cbn [fst snd] in Hb, Hx, Hm, Hx', Hm'.
  rewrite Hw in Hx', Hm'.
  unfold forward.
  rewrite !bind_lift, (to_batch_padded x batch Hlen),
    (to_batch_padded x' batch Hlen').
  cbn [fst]. unfold size3. cbv iota beta.
  rewrite !length_padded, Hw, !bind_get_self, Hnl, Hic, Hoc.
  change 1%Z with (Z.of_nat 1). rewrite !new_zeros3_nat, !bind_lift.
  rewrite !bind_get_self. unfold bind at 1. symmetry. unfold bind at 1.
  rewrite (loop_same layers _ _ c (padded x batch) (padded x' batch)
             (range (processing_steps (self w))) Hx Hm Hx' Hm' Hsame
             _ w Hic Hoc Hl).
  - reflexivity.
  - split; [|split]; apply zeros3_shape.
Qed.
End SameRounds.

Section Invariance.
Context {L : Type} {RL : Recurrent R L}.

Lemma forward_perm (w : World L) (x x' : list (list R)) (batch : list nat)
  (layers c : nat) :
  length x = length batch -> length x' = length batch ->
  Forall (fun r => length r = c) x -> Forall (fun r => length r = c) x' ->
  in_channels (self w) = Z.of_nat c ->
  out_channels (self w) = Z.of_nat (2 * c) ->
  num_layers (self w) = Z.of_nat layers ->
  lstm_shapes (lstm (self w)) layers (num_sets batch) c ->
  (forall t, Permutation (members x batch t) (members x' batch t)) ->
  forward x' batch w = forward x batch w.
Proof.
  intros Hlen Hlen' Hrows Hrows' Hic Hoc Hnl Hl Hp.
  apply (forward_same w x x' batch layers c); try assumption.
  - symmetry. now apply max_set_size_perm.
  - intros qrows _. now apply (q_star_perm c).
Qed.
End Invariance.

Lemma list_as_map_seq {A : Type} (l : list A) (n : nat) (d : A) :
  length l = n -> map (fun i => nth i l d) (seq 0 n) = l.
Proof.
  intros Hn. apply (nth_ext _ _ d d).
  - now rewrite length_map, length_seq.
  - intros i Hi. rewrite length_map, length_seq in Hi.
    exact (nth_map_seq (fun i => nth i l d) n i d Hi).
Qed.

Lemma zip_with_as_map_seq {A B C : Type} (g : A -> B -> C) (l1 : list A)
  (l2 : list B) (n : nat) (d1 : A) (d2 : B) :
  length l1 = n -> length l2 = n ->
  zip_with g l1 l2 = map (fun i => g (nth i l1 d1) (nth i l2 d2)) (seq 0 n).
Proof.
  intros H1 H2. apply (nth_ext _ _ (g d1 d2) (g d1 d2)).
  - rewrite length_zip_with, length_map, length_seq; congruence.
  - intros i Hi. rewrite length_zip_with in Hi by congruence.
    rewrite (nth_zip_with g l1 l2 i d1 d2) by lia.
    symmetry.
    exact (nth_map_seq (fun i => g (nth i l1 d1) (nth i l2 d2)) n i _
             ltac:(lia)).
Qed.

(* --------------------------------------------------------------- *)
(** ** The index formulas of a round *)

Section SpecFormulas.
Context {F : Type} {SF : Scalar F}.

Lemma dot_spec (C : nat) (xj qs : Tensor1 F) :
  length xj = C -> length qs = C ->
  dot xj qs = big_sum C (fun c => s_mul (nth c xj s_zero) (nth c qs s_zero)).
Proof.
  intros Hx Hq. unfold dot, big_sum.
  now rewrite (zip_with_as_map_seq s_mul xj qs C s_zero s_zero Hx Hq).
Qed.

Section OneSet.
Variables (B M C : nat) (x : Tensor3 F) (q : Tensor2 F) (s : nat).
Hypothesis Hx : has_shape3 B M C x.
Hypothesis Hq : has_shape2 B C q.
Hypothesis Hs : s < B.

Let xs := nth s x [].
Let qs := nth s q [].

Lemma set_shape : has_shape2 M C xs.
Proof.
  destruct Hx as [Hb Hall]. rewrite Forall_forall in Hall.
  apply Hall, nth_In. lia.
Qed.

Lemma query_length : length qs = C.
Proof.
  destruct Hq as [Hb Hall]. rewrite Forall_forall in Hall.
  apply Hall, nth_In. lia.
Qed.

Lemma row_length (j : nat) : j < M -> length (nth j xs []) = C.
Proof.
  intros Hj. destruct set_shape as [Hm Hall].
  rewrite Forall_forall in Hall. apply Hall, nth_In. lia.
Qed.

Lemma set_scores_spec (j : nat) :
  j < M -> nth j (set_scores xs qs) s_zero = spec_e C x q s j.
Proof.
  intros Hj. unfold set_scores.
  rewrite (nth_map_in _ _ _ []) by (rewrite (proj1 set_shape); exact Hj).
  now rewrite (dot_spec C _ _ (row_length j Hj) query_length).
Qed.

Lemma set_weights_spec (j : nat) :
  j < M -> nth j (set_weights xs qs) s_zero = spec_a M C x q s j.
Proof.
  intros Hj. unfold set_weights, softmax1.
  assert (Hlen : length (set_scores xs qs) = M).
  { unfold set_scores. rewrite length_map. exact (proj1 set_shape). }
  assert (Hexp : map s_exp (set_scores xs qs)
                 = map (fun j' => s_exp (spec_e C x q s j')) (seq 0 M)).
  { rewrite <- (list_as_map_seq (set_scores xs qs) M s_zero Hlen) at 1.
    rewrite map_map. apply map_ext_in. intros j' Hj'.
    apply in_seq in Hj'. rewrite set_scores_spec by lia. reflexivity. }
  rewrite (nth_map_in _ _ _ s_zero) by (rewrite length_map; lia).
  rewrite (nth_map_in _ _ _ s_zero) by lia.
  rewrite set_scores_spec by exact Hj. unfold spec_a, big_sum.
  now rewrite Hexp.
Qed.

Lemma set_readout_spec :
  0 < M -> set_readout xs qs = map (spec_r M C x q s) (seq 0 C).
Proof.
  intros Hpos. unfold set_readout, sum_rows.
  assert (Hw : length (set_weights xs qs) = M).
  { unfold set_weights. rewrite length_softmax1. unfold set_scores.
    rewrite length_map. exact (proj1 set_shape). }
  pose proof (proj1 set_shape) as Hm.
  rewrite (zip_with_as_map_seq scale (set_weights xs qs) xs M s_zero []
             Hw Hm).
  assert (Hhd : length (hd [] (map (fun i => scale (nth i (set_weights xs qs) s_zero)
                                               (nth i xs [])) (seq 0 M))) = C).
  { assert (Hseq : forall k, 0 < k -> exists l, seq 0 k = 0 :: l).
    { intros [|k] Hk; [lia|]. now eexists. }
    destruct (Hseq M Hpos) as [l ->]. simpl. unfold scale.
    rewrite length_map. apply row_length. exact Hpos. }
  rewrite Hhd. apply map_ext_in. intros c Hc. apply in_seq in Hc.
  unfold column, spec_r, big_sum. rewrite map_map. f_equal.
  apply map_ext_in. intros j Hj. apply in_seq in Hj.
  unfold scale.
  rewrite (nth_map_in _ _ _ s_zero) by (rewrite row_length; lia).
  rewrite set_weights_spec by lia. reflexivity.
Qed.

End OneSet.

End SpecFormulas.

(* ================================================================= *)
(** * The properties of the module *)

Section Claims.
Context {F : Type} {SF : Scalar F} {L : Type} {RL : Recurrent F L}.


(** C1.  For a batch of feature vectors of dimension [in_channels] whose
    set-ids [to_batch] groups into [num_sets] sets, [forward] returns a
    tensor of shape (num_sets, 2 * in_channels), whatever the maximal set
    size and the number of processing steps. *)
Theorem forward_output_shape (w : World L) (x : Tensor2 F)
  (batch : list nat) (xp : Tensor3 F) (sizes : list nat) (layers c : nat) :
  to_batch x batch = Some (xp, sizes) ->
  Forall (fun r => length r = c) x ->
  configured (self w) layers c ->
  lstm_shapes (lstm (self w)) layers (length xp) c ->
  exists out,
    fst (forward x batch w) = Some out /\
    has_shape2 (length xp) (2 * c) out.
Proof.
  intros Hb Hrows (Hic & Hoc & Hnl) Hl.
  destruct (to_batch_inv _ _ _ _ Hb) as (Hlen & -> & _).
  rewrite length_padded in *.
  destruct (forward_run w x batch layers c Hlen Hrows Hic Hoc Hnl Hl)
    as (out & E & Hout).
  exists out. now rewrite E.
Qed.

(** C2.  With [processing_steps = T], [T] positive, a call of [forward]
    invokes the recurrent step exactly [T] times whenever it returns, never
    more than [T] times, and it returns on every input that meets the
    contract of [forward]: the loop has no branch and no exit. *)
Theorem lstm_called_once_per_step (w : World L) (x : Tensor2 F)
  (batch : list nat) (T : Z) :
  processing_steps (self w) = T -> (0 < T)%Z ->
  let calls := (Z.of_nat (lstm_calls (snd (forward x batch w)))
                - Z.of_nat (lstm_calls w))%Z in
  (calls <= T)%Z /\
  (forall out, fst (forward x batch w) = Some out -> calls = T) /\
  (forall xp sizes layers c,
     to_batch x batch = Some (xp, sizes) ->
     Forall (fun r => length r = c) x ->
     configured (self w) layers c ->
     lstm_shapes (lstm (self w)) layers (length xp) c ->
     exists out, fst (forward x batch w) = Some out).
Proof.
  intros HT Hpos calls. subst calls.
  destruct (forward_world w x batch) as (n & E & Hle & Hall).
  rewrite E, HT in *. cbn [called lstm_calls]. split; [lia|]. split.
  - intros out Hout. rewrite Hall by (rewrite Hout; discriminate). lia.
  - intros xp sizes layers c Hb Hrows (Hic & Hoc & Hnl) Hl.
    destruct (to_batch_inv _ _ _ _ Hb) as (Hlen & -> & _).
    rewrite length_padded in *.
    destruct (forward_run w x batch layers c Hlen Hrows Hic Hoc Hnl Hl)
      as (out & E' & _).
    exists out. now rewrite E'.
Qed.



(** C6.  With [processing_steps = 0], [forward] performs no recurrent
    update and returns the all-zero tensor of shape
    (num_sets, 2 * in_channels). *)
Theorem zero_steps_output (w : World L) (x : Tensor2 F) (batch : list nat)
  (xp : Tensor3 F) (sizes : list nat) :
  processing_steps (self w) = 0%Z ->
  to_batch x batch = Some (xp, sizes) ->
  (0 <= in_channels (self w))%Z ->
  out_channels (self w) = (2 * in_channels (self w))%Z ->
  (0 <= num_layers (self w))%Z ->
  forward x batch w
  = (Some (zeros2 (length xp) (2 * Z.to_nat (in_channels (self w)))), w).
Proof.
  intros Hsteps Hb Hic Hoc Hnl.
  destruct (to_batch_inv _ _ _ _ Hb) as (Hlen & -> & _).
  rewrite length_padded.
  apply (forward_no_steps w x batch (Z.to_nat (num_layers (self w)))); lia.
Qed.


(** C10.  With a negative [processing_steps], [forward] raises no error:
    the loop runs zero times and the output is the all-zero tensor of shape
    (num_sets, 2 * in_channels), the output of the module with
    [processing_steps = 0]. *)
Theorem negative_steps_output (w : World L) (x : Tensor2 F)
  (batch : list nat) (xp : Tensor3 F) (sizes : list nat) (T : Z) :
  (T < 0)%Z -> processing_steps (self w) = T ->
  to_batch x batch = Some (xp, sizes) ->
  (0 <= in_channels (self w))%Z ->
  out_channels (self w) = (2 * in_channels (self w))%Z ->
  (0 <= num_layers (self w))%Z ->
  forward x batch w
  = (Some (zeros2 (length xp) (2 * Z.to_nat (in_channels (self w)))), w) /\
  fst (forward x batch w)
  = fst (forward x batch {| self := with_processing_steps 0 (self w);
                            lstm_calls := lstm_calls w |}).
Proof.
  intros Hneg Hsteps Hb Hic Hoc Hnl.
  destruct (to_batch_inv _ _ _ _ Hb) as (Hlen & -> & _).
  rewrite length_padded.
  rewrite (forward_no_steps w x batch (Z.to_nat (num_layers (self w)))
             (2 * Z.to_nat (in_channels (self w)))) by lia.
  split; [reflexivity|].
  rewrite (forward_no_steps _ x batch (Z.to_nat (num_layers (self w)))
             (2 * Z.to_nat (in_channels (self w))));
    cbn [self with_processing_steps processing_steps in_channels
         out_channels num_layers]; try lia.
  reflexivity.
Qed.
End Claims.

Section RealClaims.
Context {L : Type} {RL : Recurrent R L}.
Open Scope R_scope.

(** The scores and weights of a padded set, for any query: the padding rows
    score 0, weigh [exp(0) / denominator] and add one each to the
    denominator, and the weights of all positions add up to 1. *)
Lemma padded_scores_softmax (x : list (list R)) (batch : list nat)
  (xp : list (list (list R))) (sizes : list nat)
  (c : nat) (qrows : list (list R)) (s : nat) :
  to_batch x batch = Some (xp, sizes) ->
  Forall (fun r => length r = c) x ->
  has_shape2 (length xp) c qrows ->
  (s < length xp)%nat ->
  (nth s sizes 0 < length (hd [] xp))%nat ->
  let n := nth s sizes 0%nat in
  let m := length (hd [] xp) in
  exists e,
    scores xp (map (fun r => [r]) qrows) = Some e /\
    length (nth s e []) = m /\
    (forall j, (n <= j < m)%nat ->
               nth j (nth s xp []) [] = zeros1 c /\
               nth j (nth s e []) 0 = 0 /\
               nth j (nth s (softmax e) []) 0
               = 1 / sum1 (map exp (nth s e []))) /\
    sum1 (map exp (nth s e []))
    = sum1 (map exp (firstn n (nth s e []))) + INR (m - n) /\
    sum1 (nth s (softmax e) []) = 1.
Proof.
  intros Hb Hrows Hq Hs Hn. cbv zeta.
  destruct (to_batch_inv _ _ _ _ Hb) as (Hlen & -> & ->).
  rewrite length_padded in Hs, Hq.
  pose proof (padded_shape c x batch Hlen Hrows) as Hp.
  assert (Hx : x <> []).
  { intros ->. destruct batch; [|discriminate].
    exact (Nat.nlt_0_r _ Hs). }
  assert (Hm : length (hd [] (padded x batch)) = max_set_size x batch).
  { destruct Hp as [Hpl Hp].
    destruct (padded x batch) as [|xs rest] eqn:E; [simpl in Hpl; lia|].
    exact (proj1 (Forall_inv Hp)). }
  rewrite Hm, (nth_sizes x batch s Hs) in *.
  exists (zip_with set_scores (padded x batch) qrows).
  split; [exact (scores_sets _ _ _ _ _ Hp Hq)|].
  set (real := set_scores (members x batch s) (nth s qrows [])).
  assert (Hreal : length real = length (members x batch s)).
  { unfold real, set_scores. now rewrite length_map. }
  assert (Es : nth s (zip_with set_scores (padded x batch) qrows) []
               = real ++ repeat 0
                   (max_set_size x batch - length (members x batch s))%nat).
  { rewrite (nth_zip_with _ _ _ _ [] [])
      by (rewrite ?length_padded, ?(proj1 Hq); exact Hs).
    rewrite (nth_padded _ _ _ Hs). apply set_scores_pad. }
  assert (Ea : nth s (softmax (zip_with set_scores (padded x batch) qrows)) []
               = softmax1 (real ++ repeat 0
                   (max_set_size x batch - length (members x batch s))%nat)).
  { unfold softmax. rewrite <- Es.
    change (@nil R) with (softmax1 (F:=R) []) at 1. apply map_nth. }
  rewrite Ea, Es. repeat split.
  - rewrite length_app, repeat_length. lia.
  - rewrite (nth_padded _ _ _ Hs). unfold pad.
    rewrite app_nth2 by lia. rewrite (width_of_rows c x Hrows Hx).
    apply nth_repeat_lt. lia.
  - rewrite app_nth2 by lia. rewrite nth_repeat_lt by lia. reflexivity.
  - unfold softmax1.
    rewrite (nth_map_in _ _ _ 0) by (rewrite length_map, length_app, repeat_length; lia).
    rewrite (nth_map_in _ _ _ 0) by (rewrite length_app, repeat_length; lia).
    rewrite app_nth2 by lia. rewrite nth_repeat_lt by lia.
    simpl s_exp. rewrite exp_0. reflexivity.
  - rewrite <- Hreal, firstn_app, firstn_all, Nat.sub_diag. simpl firstn.
    rewrite app_nil_r, map_app, sum1_app, map_repeat, exp_0, sum1_repeat.
    rewrite Hreal. lra.
  - apply softmax1_total. intros E. apply (f_equal (@length R)) in E.
    rewrite length_app, repeat_length in E. simpl in E. lia.
Qed.

(** C7.  Reordering the elements of one set [s] among themselves (all other
    sets unchanged) does not change the output of [forward]; over the real
    numbers the two outputs are equal. *)
Theorem forward_order_within_set (w : World L) (x x' : list (list R))
  (batch : list nat) (layers c s : nat) :
  length x = length batch -> length x' = length batch ->
  Forall (fun r => length r = c) x -> Forall (fun r => length r = c) x' ->
  configured (self w) layers c ->
  lstm_shapes (lstm (self w)) layers (num_sets batch) c ->
  Permutation (members x batch s) (members x' batch s) ->
  (forall t, t <> s -> members x' batch t = members x batch t) ->
  exists out,
    has_shape2 (num_sets batch) (2 * c) out /\
    fst (forward x batch w) = Some out /\
    fst (forward x' batch w) = Some out.
Proof.
  intros Hlen Hlen' Hrows Hrows' (Hic & Hoc & Hnl) Hl Hs Hother.
  destruct (forward_run w x batch layers c Hlen Hrows Hic Hoc Hnl Hl)
    as (out & E & Hout).
  exists out. split; [exact Hout|].
  rewrite (forward_perm w x x' batch layers c Hlen Hlen' Hrows Hrows'
             Hic Hoc Hnl Hl).
  - now rewrite E.
  - intros t. destruct (Nat.eq_dec t s) as [->|Hne]; [exact Hs|].
    now rewrite (Hother t Hne).
Qed.
End RealClaims.

(* ================================================================= *)
(** * Further properties of the module *)

(* --------------------------------------------------------------- *)
(** ** What a returning call implies *)

Section Views.
Context {F : Type} {SF : Scalar F}.

Lemma chunks_shape (a b : nat) (l : list F) :
  length l = a * b -> has_shape2 a b (chunks a b l).
Proof.
  revert l. induction a as [|a IH]; intros l Hl.
  - split; [reflexivity|constructor].
  - assert (Hskip : length (skipn b l) = a * b) by (rewrite length_skipn; lia).
    destruct (IH _ Hskip) as [Hlen Hall]. split.
    + cbn. now rewrite Hlen.
    + cbn. constructor; [|exact Hall]. rewrite length_firstn. lia.
Qed.

Lemma dim_inv (d : Z) (n : nat) : dim d = Some n -> d = Z.of_nat n.
Proof.
  unfold dim. destruct (Z.ltb_spec d 0); [discriminate|].
  intros [= <-]. lia.
Qed.

Lemma view2_inv (d0 d1 : Z) (flat : list F) (t : Tensor2 F) :
  view2 d0 d1 flat = Some t ->
  exists a b, d0 = Z.of_nat a /\ d1 = Z.of_nat b /\
              length flat = a * b /\ t = chunks a b flat.
Proof.
  unfold view2.
  destruct (dim d0) as [a|] eqn:Ea; [|discriminate].
  destruct (dim d1) as [b|] eqn:Eb; [|discriminate]. cbn [obind].
  destruct (Nat.eqb_spec (length flat) (a * b)) as [E|E]; [|discriminate].
  intros [= <-]. exists a, b.
  repeat split; auto using dim_inv.
Qed.

Lemma view3_inv (d0 d1 d2 : Z) (flat : list F) (t : Tensor3 F) :
  view3 d0 d1 d2 flat = Some t ->
  exists a b c, d0 = Z.of_nat a /\ d1 = Z.of_nat b /\ d2 = Z.of_nat c /\
                length flat = a * (b * c) /\
                t = map (chunks b c) (chunks a (b * c) flat).
Proof.
  unfold view3.
  destruct (dim d0) as [a|] eqn:Ea; [|discriminate].
  destruct (dim d1) as [b|] eqn:Eb; [|discriminate].
  destruct (dim d2) as [c|] eqn:Ec; [|discriminate]. cbn [obind].
  destruct (Nat.eqb_spec (length flat) (a * (b * c))) as [E|E];
    [|discriminate].
  intros [= <-]. exists a, b, c.
  repeat split; auto using dim_inv.
Qed.

Lemma new_zeros3_inv (d0 d1 d2 : Z) (t : Tensor3 F) :
  new_zeros3 d0 d1 d2 = Some t ->
  (0 <= d0)%Z /\ (0 <= d1)%Z /\ (0 <= d2)%Z /\
  t = zeros3 (Z.to_nat d0) (Z.to_nat d1) (Z.to_nat d2).
Proof.
  unfold new_zeros3.
  destruct (dim d0) as [a|] eqn:Ea; [|discriminate].
  destruct (dim d1) as [b|] eqn:Eb; [|discriminate].
  destruct (dim d2) as [c|] eqn:Ec; [|discriminate]. cbn [obind].
  apply dim_inv in Ea, Eb, Ec. subst. intros [= <-].
  rewrite !Nat2Z.id. repeat split; lia.
Qed.
End Views.

Section Returns.
Context {F : Type} {SF : Scalar F} {L : Type} {RL : Recurrent F L}.

(** X1.  Whenever [forward] returns, [num_layers], [in_channels] and
    [out_channels] are not negative, [to_batch] has accepted the input, and
    the output has one row of [out_channels] entries per set, whatever the
    recurrent primitive returned. *)
Theorem forward_result_shape (w : World L) (x : Tensor2 F)
  (batch : list nat) (out : Tensor2 F) :
  fst (forward x batch w) = Some out ->
  (0 <= num_layers (self w))%Z /\
  (0 <= in_channels (self w))%Z /\
  (0 <= out_channels (self w))%Z /\
  exists xp sizes,
    to_batch x batch = Some (xp, sizes) /\
    has_shape2 (length xp) (Z.to_nat (out_channels (self w))) out.
Proof.
  unfold forward. rewrite bind_lift.
  destruct (to_batch x batch) as [[xp sizes]|] eqn:Eb; [|discriminate].
  cbn [fst]. unfold size3. cbv iota beta.
  rewrite bind_get_self, bind_lift.
  destruct (new_zeros3 (num_layers (self w)) (Z.of_nat (length xp))
              (in_channels (self w))) as [h0|] eqn:Eh; [|discriminate].
  apply new_zeros3_inv in Eh. destruct Eh as (Hnl & _ & Hic & _).
  rewrite bind_lift, bind_lift.
  destruct (new_zeros3 1 (Z.of_nat (length xp)) (out_channels (self w)))
    as [q_star|] eqn:Eq; [|discriminate].
  apply new_zeros3_inv in Eq. destruct Eq as (_ & _ & Hoc & _).
  rewrite bind_get_self, bind_run.
  pose proof (reads_self_for_each
                (step (length xp) (length (hd [] xp)) xp)
                (range (processing_steps (self w)))
                (fun i st => reads_self_step _ _ _ i st)
                (q_star, (h0, h0)) w) as [Hself _].
  destruct (for_each _ _ _ w) as [[[q_star' h']|] w1]; [|discriminate].
  cbn [snd] in Hself. rewrite bind_get_self, Hself. unfold lift. cbn [fst].
  intros Hv. apply view2_inv in Hv.
  destruct Hv as (a & b & Ha & Hb & Hn & ->).
  apply Nat2Z.inj in Ha. subst a. rewrite Hb, Nat2Z.id.
  split; [exact Hnl|]. split; [exact Hic|]. split; [lia|].
  exists xp, sizes. split; [reflexivity|]. apply chunks_shape; exact Hn.
Qed.
End Returns.

(* --------------------------------------------------------------- *)
(** ** Features of another width *)

Section Width.
Context {F : Type} {SF : Scalar F}.

Lemma view3_elements_inv (b m : nat) (flat : list F) (a : Tensor3 F) :
  view3 (Z.of_nat b) (Z.of_nat m) 1 flat = Some a ->
  exists a2, has_shape2 b m a2 /\ a = map (map (fun y => [y])) a2.
Proof.
  intros Hv. apply view3_inv in Hv.
  destruct Hv as (b' & m' & c' & Hb & Hm & Hc & Hn & ->).
  apply Nat2Z.inj in Hb, Hm. subst b' m'.
  assert (c' = 1) by lia. subst c'. rewrite Nat.mul_1_r in *.
  pose proof (chunks_shape b m flat Hn) as Hs.
  exists (chunks b m flat). split; [exact Hs|].
  apply map_ext_in. intros r Hr. destruct Hs as [_ Hall].
  rewrite Forall_forall in Hall. rewrite <- (Hall r Hr).
  apply chunks_singletons.
Qed.

Lemma length_weighted_sum (m c : nat) (ws : Tensor1 F) (xs : Tensor2 F) :
  length ws = m -> has_shape2 m c xs -> 0 < m ->
  length (sum_rows (zip_with scale ws xs)) = c.
Proof.
  intros Hw [Hm Hc] Hpos. unfold sum_rows. rewrite length_map, length_seq.
  destruct ws as [|a ws]; [simpl in Hw; lia|].
  destruct xs as [|xj xs]; [simpl in Hm; lia|].
  rewrite zip_with_cons. cbn [hd]. unfold scale. rewrite length_map.
  exact (Forall_inv Hc).
Qed.

(** A round on features of another width than the query raises. *)
Lemma attend_width (b m c c' : nat) (x : Tensor3 F) (qrows : Tensor2 F)
  (r : Tensor3 F) :
  has_shape3 b m c' x -> has_shape2 b c qrows -> 0 < b -> 0 < m ->
  attend b m (Z.of_nat c) (Z.of_nat (2 * c)) x [qrows] = Some r ->
  c' = c.
Proof.
  intros Hx Hq Hb Hm. unfold attend.
  rewrite (view3_sets _ _ _ Hq). cbn [obind].
  destruct (scores x (map (fun r0 => [r0]) qrows)) as [e|]; [|discriminate].
  cbn [obind].
  destruct (view3 (Z.of_nat b) (Z.of_nat m) 1 (flatten2 (softmax e)))
    as [a|] eqn:Ea; [|discriminate].
  destruct (view3_elements_inv _ _ _ _ Ea) as (a2 & Ha2 & ->).
  cbn [obind]. rewrite (weighted_sets _ _ _ _ _ Ha2 Hx). cbn [obind].
  rewrite cat_sets
    by (rewrite length_zip_with; rewrite (proj1 Ha2), ?(proj1 Hx), ?(proj1 Hq);
        reflexivity).
  cbn [obind]. intros Hv. apply view3_inv in Hv.
  destruct Hv as (a' & b' & c2 & Ha' & Hb' & Hc2 & Hn & _).
  apply Nat2Z.inj in Hb', Hc2. subst b' c2. assert (a' = 1) by lia. subst a'.
  unfold flatten3 in Hn. rewrite concat_singletons in Hn.
  rewrite (@length_concat_uniform _ (c + c')) in Hn.
  - rewrite length_zip_with in Hn
      by (rewrite length_zip_with; rewrite (proj1 Ha2), ?(proj1 Hx), ?(proj1 Hq);
          reflexivity).
    rewrite (proj1 Hq) in Hn. nia.
  - apply Forall_zip_with. intros qs mx Hin.
    assert (Hmx : Forall (fun mx => length (sum_rows mx) = c')
                    (zip_with (zip_with scale) a2 x)).
    { apply Forall_zip_with. intros ws xs Hin2.
      destruct (in_combine_Forall (proj2 Ha2) (proj2 Hx) Hin2) as [Hws Hxs].
      now apply (length_weighted_sum m). }
    destruct (in_combine_Forall (proj2 Hq) Hmx Hin) as [Hqs Hmxs].
    rewrite length_app. cbn beta in Hqs, Hmxs. lia.
Qed.
End Width.

Section WrongWidth.
Context {F : Type} {SF : Scalar F} {L : Type} {RL : Recurrent F L}.

Lemma range_pos (n : Z) :
  (0 < n)%Z -> exists l, range n = 0%Z :: l.
Proof.
  intros Hn. unfold range.
  destruct (Z.to_nat n) as [|k] eqn:E; [lia|]. cbn. now eexists.
Qed.

(** X2.  On a non-empty batch whose feature vectors have another width than
    [in_channels], [forward] with at least one processing step raises in
    the first round, after one call of the recurrent step. *)
Theorem forward_wrong_width_raises (w : World L) (x : Tensor2 F)
  (batch : list nat) (layers c c' : nat) :
  configured (self w) layers c ->
  lstm_shapes (lstm (self w)) layers (num_sets batch) c ->
  length x = length batch -> batch <> [] ->
  Forall (fun r => length r = c') x -> c' <> c ->
  (0 < processing_steps (self w))%Z ->
  forward x batch w = (None, called 1 w).
Proof.
  intros (Hic & Hoc & Hnl) Hl Hlen Hne Hrows Hc HT.
  pose proof (padded_shape c' x batch Hlen Hrows) as Hp.
  assert (Hsets : num_sets batch <> 0).
  { destruct batch as [|b0 batch]; [congruence|].
    rewrite num_sets_cons. lia. }
  pose proof (max_set_size_pos x batch Hlen Hsets) as Hmax.
  assert (Hw : length (hd [] (padded x batch)) = max_set_size x batch).
  { destruct Hp as [Hpl Hall].
    destruct (padded x batch) as [|xs rest]; [simpl in Hpl; lia|].
    exact (proj1 (Forall_inv Hall)). }
  unfold forward. rewrite bind_lift, (to_batch_padded x batch Hlen).
  cbn [fst]. unfold size3. cbv iota beta.
  rewrite length_padded, Hw, bind_get_self, Hnl, Hic, Hoc.
  change 1%Z with (Z.of_nat 1). rewrite !new_zeros3_nat, !bind_lift.
  rewrite bind_get_self.
  destruct (range_pos _ HT) as [l ->]. cbn [for_each].
  rewrite bind_run, bind_run.
  assert (Hst : state_ok layers (num_sets batch) c
                  (zeros3 1 (num_sets batch) (2 * c),
                   (zeros3 layers (num_sets batch) c,
                    zeros3 layers (num_sets batch) c))).
  { split; [|split]; apply zeros3_shape. }
  destruct Hst as (Hq & Hh0 & Hc0). cbn [fst snd] in Hq, Hh0, Hc0.
  destruct (Hl _ _ _ Hq Hh0 Hc0) as (q' & h1 & c1 & E & Hq' & _).
  destruct (shape3_single _ _ _ Hq') as (qrows & -> & Hqrows).
  unfold step. rewrite bind_run. unfold call_lstm at 1. rewrite E.
  rewrite bind_get_self, bind_lift. cbn [self]. rewrite Hic, Hoc.
  destruct (attend (num_sets batch) (max_set_size x batch) (Z.of_nat c)
              (Z.of_nat (2 * c)) (padded x batch) [qrows]) as [r|] eqn:Ea.
  - elim Hc. apply (attend_width _ _ _ _ _ _ _ Hp Hqrows) in Ea; [exact Ea|lia|exact Hmax].
  - unfold called. now rewrite Nat.add_1_r.
Qed.
End WrongWidth.

(* --------------------------------------------------------------- *)
(** ** The last round *)

Section LastRound.
Context {F : Type} {SF : Scalar F} {L : Type} {RL : Recurrent F L}.

(** After at least one round the loop state holds the query of the last
    call of the recurrent step and the readout for it. *)
Lemma loop_last (layers b m c : nat) (x : Tensor3 F) (l : list Z) :
  has_shape3 b m c x -> x = [] \/ 0 < m -> l <> [] ->
  forall st w,
    in_channels (self w) = Z.of_nat c ->
    out_channels (self w) = Z.of_nat (2 * c) ->
    lstm_shapes (lstm (self w)) layers b c ->
    state_ok layers b c st ->
    exists qrows h,
      has_shape2 b c qrows /\
      for_each (step b m x) l st w
      = (Some ([zip_with set_q_star x qrows], h), called (length l) w).
Proof.
  intros Hx Hm.
  induction l as [|i l IH]; intros Hne st w Hic Hoc Hl Hst; [congruence|].
  destruct st as [q_star [h0 c0]].
  pose proof Hst as (Hq & Hh & Hc). cbn [fst snd] in Hq, Hh, Hc.
  destruct (Hl q_star h0 c0 Hq Hh Hc) as (q' & h1 & c1 & E & Hq' & Hh1 & Hc1).
  destruct (shape3_single _ _ _ Hq') as (qrows & -> & Hrows).
  pose proof (step_sets b m c x i _ _ _ _ w Hic Hoc Hx Hm E Hrows) as Es.
  cbn [for_each]. rewrite bind_run, Es.
  destruct l as [|i' l'].
  - exists qrows, (h1, c1). split; [exact Hrows|reflexivity].
  - assert (Hst1 : state_ok layers b c
                     ([zip_with set_q_star x qrows], (h1, c1))).
    { split; [|split; assumption]. cbn [fst].
      apply single_shape3. now apply q_star_shape with (m := m). }
    destruct (IH ltac:(discriminate) _ (called 1 w) Hic Hoc Hl Hst1)
      as (qrows' & h' & Hrows' & E').
    exists qrows', h'. split; [exact Hrows'|]. rewrite E'. f_equal.
    unfold called. cbn. f_equal. lia.
Qed.

Lemma forward_last (w : World L) (x : Tensor2 F) (batch : list nat)
  (layers c : nat) :
  length x = length batch -> Forall (fun r => length r = c) x ->
  configured (self w) layers c ->
  lstm_shapes (lstm (self w)) layers (num_sets batch) c ->
  (0 < processing_steps (self w))%Z ->
  exists qrows,
    has_shape2 (num_sets batch) c qrows /\
    fst (forward x batch w)
    = Some (zip_with set_q_star (padded x batch) qrows).
Proof.
  intros Hlen Hrows (Hic & Hoc & Hnl) Hl HT.
  pose proof (padded_shape c x batch Hlen Hrows) as Hp.
  destruct (size3_shape _ _ _ _ Hp (padded_inhabited x batch Hlen))
    as (Hb & Hx & Hm).
  unfold size3 in Hb, Hx, Hm. cbn [fst snd] in Hb, Hx, Hm.
  unfold forward. rewrite bind_lift, (to_batch_padded x batch Hlen).
  cbn [fst]. unfold size3. cbv iota beta. rewrite Hb.
  rewrite bind_get_self, Hnl, Hic, Hoc.
  change 1%Z with (Z.of_nat 1). rewrite !new_zeros3_nat, !bind_lift.
  rewrite bind_get_self.
  assert (Hst : state_ok layers (num_sets batch) c
                  (zeros3 1 (num_sets batch) (2 * c),
                   (zeros3 layers (num_sets batch) c,
                    zeros3 layers (num_sets batch) c))).
  { split; [|split]; apply zeros3_shape. }
  assert (Hne : range (processing_steps (self w)) <> []).
  { destruct (range_pos _ HT) as [l ->]. discriminate. }
  destruct (loop_last layers _ _ c (padded x batch)
              (range (processing_steps (self w))) Hx Hm Hne _ w Hic Hoc Hl Hst)
    as (qrows & h & Hqr & E).
  exists qrows. split; [exact Hqr|].
  rewrite bind_run, E, bind_get_self. unfold lift. cbn [fst self called].
  rewrite Hoc. apply view2_output.
  apply q_star_shape with (m := length (hd [] (padded x batch))); assumption.
Qed.

(** With one processing step the query comes from the call of the
    recurrent step on the zero state. *)
Lemma forward_one_step (w : World L) (x : Tensor2 F) (batch : list nat)
  (layers c : nat) :
  length x = length batch -> Forall (fun r => length r = c) x ->
  configured (self w) layers c ->
  lstm_shapes (lstm (self w)) layers (num_sets batch) c ->
  processing_steps (self w) = 1%Z ->
  exists qrows h,
    lstm_forward (lstm (self w)) (zeros3 1 (num_sets batch) (2 * c))
      (zeros3 layers (num_sets batch) c, zeros3 layers (num_sets batch) c)
    = Some ([qrows], h) /\
    has_shape2 (num_sets batch) c qrows /\
    fst (forward x batch w)
    = Some (zip_with set_q_star (padded x batch) qrows).
Proof.
  intros Hlen Hrows (Hic & Hoc & Hnl) Hl HT.
  pose proof (padded_shape c x batch Hlen Hrows) as Hp.
  destruct (size3_shape _ _ _ _ Hp (padded_inhabited x batch Hlen))
    as (Hb & Hx & Hm).
  unfold size3 in Hb, Hx, Hm. cbn [fst snd] in Hb, Hx, Hm.
  destruct (Hl (zeros3 1 (num_sets batch) (2 * c))
              (zeros3 layers (num_sets batch) c)
              (zeros3 layers (num_sets batch) c)
              (zeros3_shape _ _ _) (zeros3_shape _ _ _) (zeros3_shape _ _ _))
    as (q' & h1 & c1 & E & Hq' & _).
  destruct (shape3_single _ _ _ Hq') as (qrows & -> & Hqr).
  exists qrows, (h1, c1). split; [exact E|]. split; [exact Hqr|].
  unfold forward. rewrite bind_lift, (to_batch_padded x batch Hlen).
  cbn [fst]. unfold size3. cbv iota beta. rewrite Hb.
  rewrite bind_get_self, Hnl, Hic, Hoc.
  change 1%Z with (Z.of_nat 1). rewrite !new_zeros3_nat, !bind_lift.
  rewrite bind_get_self, HT.
  change (range 1) with [0%Z]. cbn [for_each].
  rewrite bind_run, bind_run.
  rewrite (step_sets _ _ c (padded x batch) 0 _ _ _ _ w Hic Hoc Hx Hm E Hqr).
  unfold ret. rewrite bind_get_self. unfold lift. cbn [fst self called].
  rewrite Hoc. apply view2_output.
  apply q_star_shape with (m := length (hd [] (padded x batch))); assumption.
Qed.

Lemma nth_q_star (b c : nat) (x : Tensor3 F) (qrows : Tensor2 F) (s : nat) :
  length x = b -> length qrows = b -> s < b ->
  nth s (zip_with set_q_star x qrows) []
  = nth s qrows [] ++ set_readout (nth s x []) (nth s qrows []).
Proof.
  intros Hx Hq Hs.
  now rewrite (nth_zip_with set_q_star x qrows s [] [] []) by lia.
Qed.

(** X3.  With [processing_steps = 1] the first [in_channels] entries of
    every output row (the query) are the same for all feature values: they
    come from the recurrent step on the zero state. *)
Theorem one_step_query_ignores_features (w : World L) (x x' : Tensor2 F)
  (batch : list nat) (layers c : nat) :
  length x = length batch -> length x' = length batch ->
  Forall (fun r => length r = c) x -> Forall (fun r => length r = c) x' ->
  configured (self w) layers c ->
  lstm_shapes (lstm (self w)) layers (num_sets batch) c ->
  processing_steps (self w) = 1%Z ->
  exists out out',
    fst (forward x batch w) = Some out /\
    fst (forward x' batch w) = Some out' /\
    forall s, firstn c (nth s out []) = firstn c (nth s out' []).
Proof.
  intros Hlen Hlen' Hrows Hrows' Hcfg Hl HT.
  destruct (forward_one_step w x batch layers c Hlen Hrows Hcfg Hl HT)
    as (qrows & h & E & Hqr & Eout).
  destruct (forward_one_step w x' batch layers c Hlen' Hrows' Hcfg Hl HT)
    as (qrows' & h' & E' & _ & Eout').
  rewrite E in E'. injection E' as <- _.
  eexists. eexists. split; [exact Eout|]. split; [exact Eout'|].
  intros s. destruct (Nat.lt_ge_cases s (num_sets batch)) as [Hs|Hs].
  - rewrite !(nth_q_star (num_sets batch) c) by
      (rewrite ?length_padded; auto; exact (proj1 Hqr)).
    assert (Hq : length (nth s qrows []) = c).
    { destruct Hqr as [Hb Hall]. rewrite Forall_forall in Hall.
      apply Hall, nth_In. lia. }
    rewrite !firstn_app, Hq, Nat.sub_diag. cbn [firstn].
    reflexivity.
  - rewrite !nth_overflow; [reflexivity| |];
      rewrite length_zip_with; rewrite length_padded, ?(proj1 Hqr); auto.
Qed.
End LastRound.

(* --------------------------------------------------------------- *)
(** ** Padding in a round and in the output *)

Section Unmasked.
Open Scope R_scope.

Lemma sum1_map_div {A : Type} (f : A -> R) (d : R) (l : list A) :
  sum1 (map (fun y => f y / d) l) = sum1 (map f l) / d.
Proof.
  rewrite <- (sum1_scaled d (map f l)), map_map. reflexivity.
Qed.

Lemma sum1_map_zero {A : Type} (f : A -> R) (l : list A) :
  (forall y, In y l -> f y = 0) -> sum1 (map f l) = 0.
Proof.
  induction l as [|a l IH]; intros H; [reflexivity|].
  cbn [map]. rewrite sum1_cons, (H a (or_introl eq_refl)), IH.
  - lra.
  - intros y Hy. apply H. now right.
Qed.

(** The readout of a padded set in terms of its real rows: the padding
    rows add nothing to the weighted sum and one each to the denominator. *)
Lemma set_readout_unmasked (m c k : nat) (rows : list (list R))
  (qs : list R) :
  Forall (fun r => length r = c) rows ->
  (length rows <= m)%nat -> (0 < m)%nat -> (k < c)%nat ->
  nth k (set_readout (pad m c rows) qs) 0
  = sum1 (map (fun xj => exp (dot xj qs) * nth k xj 0) rows)
    / (sum1 (map (fun xj => exp (dot xj qs)) rows)
       + INR (m - length rows)).
Proof.
  intros Hc Hle Hpos Hk.
  destruct (pad_shape m c rows Hle Hc) as [Hm Hall].
  unfold set_readout. rewrite weighted_rows.
  set (d := sum1 (map s_exp (set_scores (pad m c rows) qs))).
  assert (Hd : d = sum1 (map (fun xj => exp (dot xj qs)) rows)
                   + INR (m - length rows)).
  { unfold d. rewrite set_scores_pad, map_app, sum1_app.
    unfold set_scores. rewrite map_map, map_repeat.
    cbn [s_exp R_Scalar]. rewrite exp_0, sum1_repeat. lra. }
  unfold sum_rows.
  assert (Hhd : length (hd [] (map (fun xj => scale (s_div (s_exp (dot xj qs)) d) xj)
                                 (pad m c rows))) = c).
  { destruct (pad m c rows) as [|xj rest]; [simpl in Hm; lia|].
    cbn [map hd]. unfold scale. rewrite length_map. exact (Forall_inv Hall). }
  rewrite Hhd.
  rewrite (nth_map_seq (fun c0 => sum1 (column c0 _)) c k 0 Hk).
  unfold column. rewrite map_map.
  rewrite (map_ext_in _ (fun xj => exp (dot xj qs) * nth k xj 0 / d)).
  2:{ intros xj Hin. rewrite Forall_forall in Hall. unfold scale.
      rewrite (nth_map_in _ _ _ 0) by (rewrite (Hall xj Hin); exact Hk).
      cbn [s_mul s_div s_exp R_Scalar]. unfold Rdiv. lra. }
  rewrite (sum1_map_div (fun xj => exp (dot xj qs) * nth k xj 0)), <- Hd.
  f_equal. unfold pad. rewrite map_app, sum1_app.
  rewrite (sum1_map_zero _ (repeat (zeros1 c) _)); [lra|].
  intros y Hy. apply repeat_spec in Hy. subst y. unfold zeros1.
  rewrite nth_repeat_lt by exact Hk. cbn [s_zero R_Scalar]. lra.
Qed.
End Unmasked.

Section PaddingClaim.
Context {L : Type} {RL : Recurrent R L}.
Open Scope R_scope.

(** C4.  [forward] applies no mask to the padding.  In every round (the
    loop body [step], for the query [q] that the recurrent step returned)
    and for every set shorter than the maximal set size: the zero-padded
    rows receive the raw score 0 and the weight [exp(0) / denominator]; the
    denominator of the set's softmax is the sum over its real elements plus
    1 for each padding position; the weights over all max_set_size
    positions add up to 1; the readout written into the next [q_star] is
    the weighted sum over all max_set_size positions, that is the sum over
    the real elements divided by that larger denominator.  The output of
    [forward] has the same form. *)
Theorem padding_is_not_masked (w : World L) (x : list (list R))
  (batch : list nat) (xp : list (list (list R))) (sizes : list nat)
  (c : nat) (i : Z) (q_star q : list (list (list R)))
  (h h' : list (list (list R)) * list (list (list R))) (s : nat) :
  to_batch x batch = Some (xp, sizes) ->
  Forall (fun r => length r = c) x ->
  in_channels (self w) = Z.of_nat c ->
  out_channels (self w) = Z.of_nat (2 * c) ->
  lstm_forward (lstm (self w)) q_star h = Some (q, h') ->
  has_shape3 1 (length xp) c q ->
  (s < length xp)%nat ->
  (nth s sizes 0 < length (hd [] xp))%nat ->
  let n := nth s sizes 0%nat in
  let m := length (hd [] xp) in
  let real := firstn n (nth s xp []) in
  exists qv e q_star',
    view3 (Z.of_nat (length xp)) 1 (Z.of_nat c) (flatten3 q) = Some qv /\
    scores xp qv = Some e /\
    fst (step (length xp) m xp i (q_star, h) w) = Some (q_star', h') /\
    length (nth s e []) = m /\
    (forall j, (n <= j < m)%nat ->
               nth j (nth s xp []) [] = zeros1 c /\
               nth j (nth s e []) 0 = 0 /\
               nth j (nth s (softmax e) []) 0
               = 1 / sum1 (map exp (nth s e []))) /\
    sum1 (map exp (nth s e []))
    = sum1 (map exp (firstn n (nth s e []))) + INR (m - n) /\
    sum1 (nth s (softmax e) []) = 1 /\
    (forall k, (k < c)%nat ->
       nth (c + k) (nth s (hd [] q_star') []) 0
       = sum1 (map (fun j => nth j (nth s (softmax e) []) 0
                             * nth k (nth j (nth s xp []) []) 0)
                 (seq 0 m)) /\
       nth (c + k) (nth s (hd [] q_star') []) 0
       = sum1 (map (fun xj => exp (dot xj (nth s (hd [] q) []))
                              * nth k xj 0) real)
         / (sum1 (map (fun xj => exp (dot xj (nth s (hd [] q) []))) real)
            + INR (m - n))) /\
    (forall layers,
       num_layers (self w) = Z.of_nat layers ->
       lstm_shapes (lstm (self w)) layers (length xp) c ->
       (0 < processing_steps (self w))%Z ->
       exists qrows out,
         has_shape2 (length xp) c qrows /\
         fst (forward x batch w) = Some out /\
         forall k, (k < c)%nat ->
           nth (c + k) (nth s out []) 0
           = sum1 (map (fun xj => exp (dot xj (nth s qrows [])) * nth k xj 0)
                     real)
             / (sum1 (map (fun xj => exp (dot xj (nth s qrows []))) real)
                + INR (m - n))).
Proof.
  intros Hb Hrows Hic Hoc E Hq Hs Hn. cbv zeta.
  destruct (shape3_single _ _ _ Hq) as (qrows & -> & Hqr). cbn [hd].
  destruct (padded_scores_softmax x batch xp sizes c qrows s Hb Hrows Hqr
              Hs Hn) as (e & He & Hlen_e & Hpad & Hden & Hsum).
  destruct (to_batch_inv _ _ _ _ Hb) as (Hlen & -> & ->).
  rewrite length_padded in *.
  pose proof (padded_shape c x batch Hlen Hrows) as Hp.
  assert (Hx : x <> []).
  { intros ->. destruct batch; [|discriminate].
    exact (Nat.nlt_0_r _ Hs). }
  assert (Hm : length (hd [] (padded x batch)) = max_set_size x batch).
  { destruct Hp as [Hpl Hp'].
    destruct (padded x batch) as [|xs rest] eqn:E0; [simpl in Hpl; lia|].
    exact (proj1 (Forall_inv Hp')). }
  rewrite Hm, (nth_sizes x batch s Hs) in *.
  assert (Hpos : (0 < max_set_size x batch)%nat) by lia.
  assert (Hset : nth s (padded x batch) []
                 = pad (max_set_size x batch) c (members x batch s)).
  { rewrite (nth_padded _ _ _ Hs). now rewrite (width_of_rows c x Hrows Hx). }
  assert (Hreal : firstn (length (members x batch s))
                    (nth s (padded x batch) []) = members x batch s).
  { rewrite Hset. unfold pad.
    now rewrite firstn_app, firstn_all, Nat.sub_diag, app_nil_r. }
  assert (Hmem : Forall (fun r => length r = c) (members x batch s))
    by now apply members_rows.
  assert (Hqs : forall qr : list (list R), has_shape2 (num_sets batch) c qr ->
                           length (nth s qr []) = c).
  { intros qr [Hl Hall]. rewrite Forall_forall in Hall.
    apply Hall, nth_In. lia. }
  assert (Hrow : forall qr : list (list R), has_shape2 (num_sets batch) c qr ->
            forall k, (k < c)%nat ->
            nth (c + k) (nth s (zip_with set_q_star (padded x batch) qr) []) 0
            = sum1 (map (fun xj => exp (dot xj (nth s qr [])) * nth k xj 0)
                      (members x batch s))
              / (sum1 (map (fun xj => exp (dot xj (nth s qr []))) (members x batch s))
                 + INR (max_set_size x batch - length (members x batch s)))).
  { intros qr Hqr' k Hk.
    rewrite (nth_zip_with set_q_star _ qr s [] [] [])
      by (rewrite ?length_padded, ?(proj1 Hqr'); exact Hs).
    unfold set_q_star. rewrite app_nth2 by (rewrite (Hqs qr Hqr'); lia).
    rewrite (Hqs qr Hqr'). replace (c + k - c)%nat with k by lia.
    rewrite Hset. apply set_readout_unmasked; auto; lia. }
  pose proof (scores_sets _ _ _ _ _ Hp Hqr) as He'. rewrite He in He'.
  injection He' as ->.
  exists (map (fun r => [r]) qrows),
    (zip_with set_scores (padded x batch) qrows),
    [zip_with set_q_star (padded x batch) qrows].
  split; [exact (view3_sets _ _ _ Hqr)|].
  split; [exact He|].
  split.
  { rewrite (step_sets _ _ c (padded x batch) i _ _ _ _ w Hic Hoc Hp
               (or_intror Hpos) E Hqr). reflexivity. }
  split; [exact Hlen_e|]. split; [exact Hpad|]. split; [exact Hden|].
  split; [exact Hsum|]. rewrite Hreal. split.
  - intros k Hk. cbn [hd]. split; [|now apply Hrow].
    rewrite (nth_zip_with set_q_star _ qrows s [] [] [])
      by (rewrite ?length_padded, ?(proj1 Hqr); exact Hs).
    unfold set_q_star. rewrite app_nth2 by (rewrite (Hqs qrows Hqr); lia).
    rewrite (Hqs qrows Hqr). replace (c + k - c)%nat with k by lia.
    rewrite (set_readout_spec _ _ _ _ _ s Hp Hqr Hs Hpos).
    rewrite (nth_map_seq (spec_r _ _ _ _ s) c k 0 Hk).
    unfold spec_r, big_sum. f_equal. apply map_ext_in. intros j Hj.
    apply in_seq in Hj.
    rewrite <- (set_weights_spec _ _ _ _ _ s Hp Hqr Hs j) by lia.
    unfold softmax.
    rewrite (nth_map_in softmax1 _ s [] [])
      by (rewrite length_zip_with; rewrite ?length_padded, ?(proj1 Hqr); auto).
    rewrite (nth_zip_with set_scores _ qrows s [] [] [])
      by (rewrite ?length_padded, ?(proj1 Hqr); exact Hs).
    reflexivity.
  - intros layers Hnl Hl HT.
    destruct (forward_last w x batch layers c Hlen Hrows
                (conj Hic (conj Hoc Hnl)) Hl HT) as (qr & Hqr' & Eout).
    exists qr, (zip_with set_q_star (padded x batch) qr).
    split; [exact Hqr'|]. split; [exact Eout|].
    intros k Hk. now apply Hrow.
Qed.
End PaddingClaim.

(* --------------------------------------------------------------- *)
(** ** The readout as a weighted mean *)

Section Means.
Open Scope R_scope.

Lemma weighted_sum_bounds (lo hi : R) (ws vs : list R) :
  length ws = length vs ->
  Forall (fun a => 0 <= a) ws ->
  Forall (fun v => lo <= v <= hi) vs ->
  lo * sum1 ws <= sum1 (zip_with Rmult ws vs) <= hi * sum1 ws.
Proof.
  revert vs. induction ws as [|a ws IH]; intros [|v vs] Hlen Hw Hv;
    try discriminate.
  - change (sum1 (F:=R) []) with 0. cbn. change (sum1 (F:=R) []) with 0. lra.
  - rewrite zip_with_cons, !sum1_cons.
    pose proof (Forall_inv Hw) as Ha. pose proof (Forall_inv Hv) as Hb.
    cbn beta in Ha, Hb.
    destruct (IH vs) as [IH1 IH2];
      [simpl in Hlen; lia|exact (Forall_inv_tail Hw)|exact (Forall_inv_tail Hv)|].
    split; nra.
Qed.

Lemma softmax1_nonneg (v : list R) : Forall (fun a => 0 <= a) (softmax1 v).
Proof.
  unfold softmax1. rewrite Forall_map, Forall_map, Forall_forall.
  intros y Hy.
  assert (Hv : v <> []) by (intros ->; destruct Hy).
  pose proof (sum1_exp_pos v Hv) as Hd. pose proof (exp_pos y) as He.
  cbn [s_div s_exp R_Scalar]. unfold Rdiv.
  apply Rmult_le_pos; [lra|]. left. now apply Rinv_0_lt_compat.
Qed.

Lemma column_weighted (c k : nat) (ws : list R) (xs : list (list R)) :
  Forall (fun r => length r = c) xs -> (k < c)%nat ->
  column k (zip_with scale ws xs) = zip_with Rmult ws (column k xs).
Proof.
  intros Hc Hk. unfold column. rewrite map_zip_with, zip_with_map_r.
  apply zip_with_ext_in. intros a xj Hin. apply in_combine_r in Hin.
  rewrite Forall_forall in Hc. unfold scale.
  now rewrite (nth_map_in _ _ _ 0) by (rewrite (Hc xj Hin); exact Hk).
Qed.

(** Every component of the readout of a set is a weighted mean of that
    component over the rows of the set. *)
Lemma set_readout_bounds (m c k : nat) (lo hi : R) (xs : list (list R))
  (qs : list R) :
  has_shape2 m c xs -> (0 < m)%nat -> (k < c)%nat ->
  (forall row, In row xs -> lo <= nth k row 0 <= hi) ->
  lo <= nth k (set_readout xs qs) 0 <= hi.
Proof.
  intros [Hm Hc] Hpos Hk Hb. unfold set_readout, sum_rows.
  assert (Hne : xs <> []) by (intros ->; simpl in Hm; lia).
  assert (Hsc : set_scores xs qs <> []).
  { unfold set_scores. destruct xs; [congruence|discriminate]. }
  assert (Hw : length (set_weights xs qs) = length xs).
  { unfold set_weights, set_scores. now rewrite length_softmax1, length_map. }
  assert (Hhd : length (hd [] (zip_with scale (set_weights xs qs) xs)) = c).
  { destruct xs as [|xj xs']; [congruence|].
    destruct (set_weights (xj :: xs') qs) as [|a ws]; [discriminate|].
    rewrite zip_with_cons. cbn [hd]. unfold scale. rewrite length_map.
    exact (Forall_inv Hc). }
  rewrite Hhd.
  rewrite (nth_map_seq (fun c0 => sum1 (column c0 _)) c k 0 Hk).
  rewrite (column_weighted c k _ _ Hc Hk).
  pose proof (weighted_sum_bounds lo hi (set_weights xs qs) (column k xs))
    as Hmean.
  assert (Hsum : sum1 (set_weights xs qs) = 1)
    by (apply softmax1_total; exact Hsc).
  rewrite Hsum, !Rmult_1_r in Hmean. apply Hmean.
  - unfold column. now rewrite length_map.
  - apply softmax1_nonneg.
  - unfold column. rewrite Forall_map, Forall_forall. exact Hb.
Qed.
End Means.

Section Bounds.
Context {L : Type} {RL : Recurrent R L}.
Open Scope R_scope.

(** X4.  After at least one processing step, entry [in_channels + k] of
    the output row of a set (component [k] of its readout) lies between any
    two bounds of feature [k] over the members of the set; the bounds must
    include 0 when the set is shorter than the longest set, because the
    padding rows are averaged too. *)
Theorem forward_readout_bounds (w : World L) (x : list (list R))
  (batch : list nat) (layers c s k : nat) (lo hi : R) :
  length x = length batch -> Forall (fun r => length r = c) x ->
  configured (self w) layers c ->
  lstm_shapes (lstm (self w)) layers (num_sets batch) c ->
  (0 < processing_steps (self w))%Z ->
  (s < num_sets batch)%nat -> (k < c)%nat ->
  (forall row, In row (members x batch s) -> lo <= nth k row 0 <= hi) ->
  ((length (members x batch s) < max_set_size x batch)%nat -> lo <= 0 <= hi) ->
  exists out,
    fst (forward x batch w) = Some out /\
    lo <= nth (c + k) (nth s out []) 0 <= hi.
Proof.
  intros Hlen Hrows Hcfg Hl HT Hs Hk Hmem Hpad.
  destruct (forward_last w x batch layers c Hlen Hrows Hcfg Hl HT)
    as (qrows & Hqr & E).
  exists (zip_with set_q_star (padded x batch) qrows). split; [exact E|].
  pose proof (padded_shape c x batch Hlen Hrows) as Hp.
  rewrite (nth_q_star (num_sets batch) c)
    by (rewrite ?length_padded; auto; exact (proj1 Hqr)).
  assert (Hq : length (nth s qrows []) = c).
  { destruct Hqr as [Hb Hall]. rewrite Forall_forall in Hall.
    apply Hall, nth_In. lia. }
  rewrite app_nth2 by lia. rewrite Hq.
  replace (c + k - c)%nat with k by lia.
  assert (Hset : has_shape2 (max_set_size x batch) c (nth s (padded x batch) [])).
  { destruct Hp as [Hb Hall]. rewrite Forall_forall in Hall.
    apply Hall, nth_In. lia. }
  apply (set_readout_bounds (max_set_size x batch) c); auto.
  - apply max_set_size_pos; [exact Hlen|lia].
  - intros row Hin. rewrite (nth_padded _ _ _ Hs) in Hin. unfold pad in Hin.
    apply in_app_or in Hin. destruct Hin as [Hin|Hin]; [now apply Hmem|].
    assert (Hlt : (length (members x batch s) < max_set_size x batch)%nat).
    { destruct (max_set_size x batch - length (members x batch s))%nat eqn:E0;
        [destruct Hin|lia]. }
    apply repeat_spec in Hin. subst row. unfold zeros1.
    destruct (Nat.lt_ge_cases k (length (hd [] x))) as [Hk'|Hk'].
    + rewrite nth_repeat_lt by exact Hk'. now apply Hpad.
    + rewrite nth_overflow by (rewrite repeat_length; exact Hk').
      now apply Hpad.
Qed.
End Bounds.

Section Equal.
Context {L : Type} {RL : Recurrent R L}.
Open Scope R_scope.

(** X5.  When all members of a set of maximal size carry the same feature
    vector [v] (a batch of one-element sets is the simplest case), the
    readout half of the set's output row is [v]. *)
Theorem forward_equal_elements (w : World L) (x : list (list R))
  (batch : list nat) (layers c s : nat) (v : list R) :
  length x = length batch -> Forall (fun r => length r = c) x ->
  configured (self w) layers c ->
  lstm_shapes (lstm (self w)) layers (num_sets batch) c ->
  (0 < processing_steps (self w))%Z ->
  (s < num_sets batch)%nat ->
  length (members x batch s) = max_set_size x batch ->
  (forall row, In row (members x batch s) -> row = v) ->
  exists out,
    fst (forward x batch w) = Some out /\
    skipn c (nth s out []) = v.
Proof.
  intros Hlen Hrows Hcfg Hl HT Hs Hfull Hall.
  destruct (forward_last w x batch layers c Hlen Hrows Hcfg Hl HT)
    as (qrows & Hqr & E).
  exists (zip_with set_q_star (padded x batch) qrows). split; [exact E|].
  pose proof (padded_shape c x batch Hlen Hrows) as Hp.
  rewrite (nth_q_star (num_sets batch) c)
    by (rewrite ?length_padded; auto; exact (proj1 Hqr)).
  assert (Hq : length (nth s qrows []) = c).
  { destruct Hqr as [Hb Hq]. rewrite Forall_forall in Hq.
    apply Hq, nth_In. lia. }
  rewrite skipn_app, Hq, Nat.sub_diag, <- Hq, skipn_all. cbn [app skipn].
  assert (Hset : has_shape2 (max_set_size x batch) c
                   (nth s (padded x batch) [])).
  { destruct Hp as [Hb Hsets]. rewrite Forall_forall in Hsets.
    apply Hsets, nth_In. lia. }
  assert (Hpos : (0 < max_set_size x batch)%nat)
    by (apply max_set_size_pos; [exact Hlen|lia]).
  assert (Hrow : forall row, In row (nth s (padded x batch) []) -> row = v).
  { intros row Hin. rewrite (nth_padded _ _ _ Hs) in Hin. unfold pad in Hin.
    rewrite Hfull, Nat.sub_diag, app_nil_r in Hin. now apply Hall. }
  assert (Hv : length v = c).
  { destruct (nth s (padded x batch) []) as [|row rest] eqn:En.
    - destruct Hset as [Hm _]. simpl in Hm. lia.
    - rewrite <- (Hrow row (or_introl eq_refl)).
      exact (Forall_inv (proj2 Hset)). }
  apply (nth_ext _ _ 0 0).
  - rewrite (length_set_readout _ c _ _ Hset Hpos). now symmetry.
  - intros k Hk. rewrite (length_set_readout _ c _ _ Hset Hpos) in Hk.
    destruct (set_readout_bounds (max_set_size x batch) c k
                (nth k v 0) (nth k v 0) _ (nth s qrows []) Hset Hpos Hk)
      as [H1 H2]; [|lra].
    intros row Hin. rewrite (Hrow row Hin). lra.
Qed.

(** X6.  The output depends on every set as a multiset: reordering the
    members within any number of sets at once leaves it unchanged. *)
Theorem forward_sets_as_multisets (w : World L) (x x' : list (list R))
  (batch : list nat) (layers c : nat) :
  length x = length batch -> length x' = length batch ->
  Forall (fun r => length r = c) x -> Forall (fun r => length r = c) x' ->
  configured (self w) layers c ->
  lstm_shapes (lstm (self w)) layers (num_sets batch) c ->
  (forall t, Permutation (members x batch t) (members x' batch t)) ->
  exists out,
    fst (forward x batch w) = Some out /\
    fst (forward x' batch w) = Some out.
Proof.
  intros Hlen Hlen' Hrows Hrows' (Hic & Hoc & Hnl) Hl Hperm.
  destruct (forward_run w x batch layers c Hlen Hrows Hic Hoc Hnl Hl)
    as (out & E & _).
  exists out.
  rewrite (forward_perm w x x' batch layers c Hlen Hlen' Hrows Hrows'
             Hic Hoc Hnl Hl Hperm).
  now rewrite E.
Qed.
End Equal.

Section Built.
Context {F : Type} {SF : Scalar F} {L : Type} {RL : Recurrent F L}.


End Built.

(* --------------------------------------------------------------- *)
(** ** The representation *)

Module ReprFacts.
Import String Ascii Repr.
Local Open Scope string_scope.

Example repr_example :
  fst (__repr__ "Set2Set" (example_world 3)) = Some "Set2Set(2, 4)".
Proof. reflexivity. Qed.

Example repr_of_subclass :
  fst (__repr__ "Sub" (example_world 3)) = Some "Sub(2, 4)".
Proof. reflexivity. Qed.

Example str_negative : str (-120) = "-120".
Proof. reflexivity. Qed.

Example format_too_few : format "{}({}, {})" ["a"; "b"] = None.
Proof. reflexivity. Qed.

Lemma repr_value {L : Type} (class_name : string) (w : World L) :
  __repr__ class_name w
  = (Some (class_name ++ "(" ++ str (in_channels (self w)) ++ ", "
           ++ str (out_channels (self w)) ++ ")"), w).
Proof. reflexivity. Qed.

Lemma str_inj (n n' : Z) : str n = str n' -> n = n'.
Proof.
  unfold str. intros E. apply DecimalZ.to_int_inj.
  assert (Hok : forall z, Z.to_int z <> Decimal.Pos Decimal.Nil /\
                          Z.to_int z <> Decimal.Neg Decimal.Nil).
  { intros [|p|p]; cbn; split; try discriminate;
      intros [= H]; exact (DecimalPos.Unsigned.to_uint_nonnil p H). }
  pose proof (DecimalString.NilZero.isi (Z.to_int n)
                (proj1 (Hok n)) (proj2 (Hok n))) as H1.
  pose proof (DecimalString.NilZero.isi (Z.to_int n')
                (proj1 (Hok n')) (proj2 (Hok n'))) as H2.
  rewrite E in H1. rewrite H1 in H2. now injection H2.
Qed.

Lemma digits_free_of (c : ascii) (d : Decimal.uint) :
  c <> "0"%char -> c <> "1"%char -> c <> "2"%char -> c <> "3"%char ->
  c <> "4"%char -> c <> "5"%char -> c <> "6"%char -> c <> "7"%char ->
  c <> "8"%char -> c <> "9"%char ->
  free_of c (DecimalString.NilEmpty.string_of_uint d).
Proof.
  intros. induction d; cbn; auto.
Qed.

Lemma str_free_of (c : ascii) (n : Z) :
  c <> "-"%char ->
  c <> "0"%char -> c <> "1"%char -> c <> "2"%char -> c <> "3"%char ->
  c <> "4"%char -> c <> "5"%char -> c <> "6"%char -> c <> "7"%char ->
  c <> "8"%char -> c <> "9"%char ->
  free_of c (str n).
Proof.
  intros Hm H0 H1 H2 H3 H4 H5 H6 H7 H8 H9. unfold str.
  assert (Hu : forall d, free_of c (DecimalString.NilZero.string_of_uint d)).
  { intros d. unfold DecimalString.NilZero.string_of_uint.
    destruct d; try (apply digits_free_of; assumption). cbn. auto. }
  destruct (Z.to_int n) as [d|d]; cbn; auto.
Qed.

Lemma split_at (c : ascii) (a a' r r' : string) :
  free_of c a -> free_of c a' ->
  a ++ String c r = a' ++ String c r' -> a = a' /\ r = r'.
Proof.
  revert a'. induction a as [|ch a IH]; intros [|ch' a'] Ha Ha' E; cbn in *.
  - injection E as ->. auto.
  - injection E as <- _. now destruct Ha'.
  - injection E as -> _. now destruct Ha.
  - injection E as -> E. destruct Ha as [_ Ha], Ha' as [_ Ha'].
    destruct (IH a' Ha Ha' E) as [-> ->]. auto.
Qed.

(** X8.  [__repr__] shows the name of the object's class, [in_channels] and
    [out_channels], and nothing else: for class names without a
    parenthesis (as every Python identifier), two objects have the same
    representation exactly when they agree on the class name and on these
    two fields. *)
Theorem repr_shows_channels {L : Type} (class1 class2 : string)
  (w1 w2 : World L) :
  free_of "("%char class1 -> free_of "("%char class2 ->
  (fst (__repr__ class1 w1) = fst (__repr__ class2 w2) <->
   class1 = class2 /\
   in_channels (self w1) = in_channels (self w2) /\
   out_channels (self w1) = out_channels (self w2)).
Proof.
  intros Hc1 Hc2. rewrite !repr_value. cbn [fst]. split.
  - intros [= E].
    assert (Hc : forall n, free_of ","%char (str n))
      by (intros n; apply str_free_of; discriminate).
    assert (Hp : forall n, free_of ")"%char (str n))
      by (intros n; apply str_free_of; discriminate).
    destruct (split_at "("%char _ _ _ _ Hc1 Hc2 E) as [E0 E1].
    destruct (split_at ","%char _ _ _ _ (Hc _) (Hc _) E1) as [E2 E3].
    injection E3 as E3.
    destruct (split_at ")"%char _ _ _ _ (Hp _) (Hp _) E3) as [E4 _].
    split; [exact E0|]. split; now apply str_inj.
  - intros (-> & -> & ->). reflexivity.
Qed.

Lemma repr_shows_channels_witness :
  fst (__repr__ "Set2Set" (example_world 3))
  = fst (__repr__ "Sub" (example_world 0)) <->
  "Set2Set" = "Sub" /\
  in_channels (self (example_world 3)) = in_channels (self (example_world 0)) /\
  out_channels (self (example_world 3))
  = out_channels (self (example_world 0)).
Proof.
  apply (repr_shows_channels "Set2Set" "Sub" (example_world 3)
           (example_world 0)).
  - cbn. repeat split; discriminate.
  - cbn. repeat split; discriminate.
Defined.
End ReprFacts.

(* ================================================================= *)
(** * The properties at a concrete input *)

Lemma halving_lstm_shapes (F : Type) (layers b c : nat) :
  lstm_shapes (RL := halving_lstm F) tt layers b c.
Proof.
  intros q h0 c0 [Hq1 Hq] Hh Hc. exists (halve q), h0, c0.
  split; [reflexivity|]. split; [|split; assumption].
  unfold halve. split; [now rewrite length_map|].
  rewrite Forall_map. eapply Forall_impl; [|exact Hq].
  intros rows [Hb Hrows]. split; [now rewrite length_map|].
  rewrite Forall_map. eapply Forall_impl; [|exact Hrows].
  cbn beta. intros r Hr. rewrite Hr, Nat.div2_double, length_firstn. lia.
Qed.

Lemma example_to_batch :
  to_batch example_x example_batch = Some (example_padded, [2; 1]).
Proof. reflexivity. Qed.

Lemma example_rows : Forall (fun r : list R => length r = 2) example_x.
Proof. repeat constructor. Qed.

Lemma example_configured (steps : Z) : configured (example_net steps) 1 2.
Proof. repeat split. Qed.

Lemma forward_output_shape_witness :
  exists out,
    fst (forward (RL := halving_lstm R) example_x example_batch
           (example_world 3)) = Some out /\
    has_shape2 2 4 out.
Proof.
  apply (forward_output_shape (RL := halving_lstm R) (example_world 3)
           example_x example_batch example_padded [2; 1] 1 2).
  - exact example_to_batch.
  - exact example_rows.
  - exact (example_configured 3).
  - apply halving_lstm_shapes.
Defined.

Lemma lstm_called_once_per_step_witness :
  let calls :=
    (Z.of_nat (lstm_calls (snd (forward (RL := halving_lstm R) example_x
                                  example_batch (example_world 3))))
     - 0)%Z in
  (calls <= 3)%Z /\
  exists out,
    fst (forward (RL := halving_lstm R) example_x example_batch
           (example_world 3)) = Some out /\
    calls = 3%Z.
Proof.
  destruct (lstm_called_once_per_step (RL := halving_lstm R)
              (example_world 3) example_x example_batch 3)
    as (Hle & Hexact & Hreturns).
  - reflexivity.
  - reflexivity.
  - split; [exact Hle|].
    destruct (Hreturns example_padded [2; 1] 1 2 example_to_batch
                example_rows (example_configured 3)
                (halving_lstm_shapes R 1 2 2)) as (out & Hout).
    exists out. split; [exact Hout|exact (Hexact out Hout)].
Defined.




Lemma zero_steps_output_witness :
  forward (RL := halving_lstm R) example_x example_batch (example_world 0)
  = (Some (zeros2 2 4), example_world 0).
Proof.
  apply (zero_steps_output (RL := halving_lstm R) (example_world 0)
           example_x example_batch example_padded [2; 1]).
  - reflexivity.
  - exact example_to_batch.
  - cbn. lia.
  - reflexivity.
  - cbn. lia.
Defined.

Lemma forward_order_within_set_witness :
  exists out,
    has_shape2 2 (2 * 2) out /\
    fst (forward (RL := halving_lstm R) example_x example_batch
           (example_world 3)) = Some out /\
    fst (forward (RL := halving_lstm R) [[3; 4]; [1; 2]; [5; 6]]%R
           example_batch (example_world 3)) = Some out.
Proof.
  apply (forward_order_within_set (RL := halving_lstm R) (example_world 3)
           example_x [[3; 4]; [1; 2]; [5; 6]]%R example_batch 1 2 0).
  - reflexivity.
  - reflexivity.
  - exact example_rows.
  - repeat constructor.
  - exact (example_configured 3).
  - apply halving_lstm_shapes.
  - apply perm_swap.
  - intros [|[|t]] Ht; [now elim Ht|reflexivity|reflexivity].
Defined.

Lemma negative_steps_output_witness :
  forward (RL := halving_lstm R) example_x example_batch (example_world (-3))
  = (Some (zeros2 2 4), example_world (-3)) /\
  fst (forward (RL := halving_lstm R) example_x example_batch
         (example_world (-3)))
  = fst (forward (RL := halving_lstm R) example_x example_batch
           (example_world 0)).
Proof.
  apply (negative_steps_output (RL := halving_lstm R) (example_world (-3))
           example_x example_batch example_padded [2; 1] (-3)).
  - reflexivity.
  - reflexivity.
  - exact example_to_batch.
  - cbn. lia.
  - reflexivity.
  - cbn. lia.
Defined.

Lemma forward_result_shape_witness :
  (0 <= 1)%Z /\ (0 <= 2)%Z /\ (0 <= 4)%Z /\
  exists xp sizes,
    to_batch example_x example_batch = Some (xp, sizes) /\
    has_shape2 (length xp) 4 [[0; 0; 2; 3]; [0; 0; 5 / 2; 3]]%R.
Proof.
  exact (forward_result_shape (RL := halving_lstm R) (example_world 1)
           example_x example_batch [[0; 0; 2; 3]; [0; 0; 5 / 2; 3]]%R
           forward_padded_set).
Defined.

Lemma forward_wrong_width_raises_witness :
  forward (RL := halving_lstm R) [[1; 2; 3]; [4; 5; 6]]%R [0; 0]
    (example_world 3)
  = (None, called 1 (example_world 3)).
Proof.
  apply (forward_wrong_width_raises (RL := halving_lstm R) (example_world 3)
           [[1; 2; 3]; [4; 5; 6]]%R [0; 0] 1 2 3).
  - exact (example_configured 3).
  - apply halving_lstm_shapes.
  - reflexivity.
  - discriminate.
  - repeat constructor.
  - discriminate.
  - reflexivity.
Defined.

Lemma one_step_query_ignores_features_witness :
  exists out out',
    fst (forward (RL := halving_lstm R) example_x example_batch
           (example_world 1)) = Some out /\
    fst (forward (RL := halving_lstm R) [[7; 8]; [9; 1]; [2; 3]]%R
           example_batch (example_world 1)) = Some out' /\
    forall s, firstn 2 (nth s out []) = firstn 2 (nth s out' []).
Proof.
  apply (one_step_query_ignores_features (RL := halving_lstm R)
           (example_world 1) example_x [[7; 8]; [9; 1]; [2; 3]]%R
           example_batch 1 2).
  - reflexivity.
  - reflexivity.
  - exact example_rows.
  - repeat constructor.
  - exact (example_configured 1).
  - apply halving_lstm_shapes.
  - reflexivity.
Defined.

Lemma forward_readout_bounds_witness :
  exists out,
    fst (forward (RL := halving_lstm R) example_x example_batch
           (example_world 3)) = Some out /\
    (1 <= nth (2 + 0) (nth 0 out []) 0 <= 3)%R.
Proof.
  apply (forward_readout_bounds (RL := halving_lstm R) (example_world 3)
           example_x example_batch 1 2 0 0 1%R 3%R).
  - reflexivity.
  - exact example_rows.
  - exact (example_configured 3).
  - apply halving_lstm_shapes.
  - reflexivity.
  - repeat constructor.
  - repeat constructor.
  - intros row [<-|[<-|[]]]; cbn; lra.
  - intros H. cbv in H. lia.
Defined.

Lemma forward_equal_elements_witness :
  exists out,
    fst (forward (RL := halving_lstm R) [[1; 2]; [1; 2]; [5; 6]]%R
           example_batch (example_world 3)) = Some out /\
    skipn 2 (nth 0 out []) = [1; 2]%R.
Proof.
  apply (forward_equal_elements (RL := halving_lstm R) (example_world 3)
           [[1; 2]; [1; 2]; [5; 6]]%R example_batch 1 2 0 [1; 2]%R).
  - reflexivity.
  - repeat constructor.
  - exact (example_configured 3).
  - apply halving_lstm_shapes.
  - reflexivity.
  - repeat constructor.
  - reflexivity.
  - intros row [<-|[<-|[]]]; reflexivity.
Defined.

Lemma forward_sets_as_multisets_witness :
  exists out,
    fst (forward (RL := halving_lstm R) example_x example_batch
           (example_world 3)) = Some out /\
    fst (forward (RL := halving_lstm R) [[3; 4]; [1; 2]; [5; 6]]%R
           example_batch (example_world 3)) = Some out.
Proof.
  apply (forward_sets_as_multisets (RL := halving_lstm R) (example_world 3)
           example_x [[3; 4]; [1; 2]; [5; 6]]%R example_batch 1 2).
  - reflexivity.
  - reflexivity.
  - exact example_rows.
  - repeat constructor.
  - exact (example_configured 3).
  - apply halving_lstm_shapes.
  - intros [|[|t]]; [apply perm_swap|apply Permutation_refl
                     |apply Permutation_refl].
Defined.


Lemma padding_is_not_masked_witness :
  exists qv e q_star',
    view3 2 1 2 (flatten3 [[[1; 0]; [0; 1]]]%R) = Some qv /\
    scores example_padded qv = Some e /\
    fst (step (RL := halving_lstm R) 2 2 example_padded 0
           ([[[1; 0; 7; 7]; [0; 1; 7; 7]]]%R, ([], [])) (example_world 3))
    = Some (q_star', ([], [])) /\
    nth 1 (nth 1 e []) 0%R = 0%R /\
    sum1 (nth 1 (softmax e) []) = 1%R /\
    nth (2 + 0) (nth 1 (hd [] q_star') []) 0%R
    = (sum1 (map (fun xj => exp (dot xj [0; 1]) * nth 0 xj 0) [[5; 6]])
       / (sum1 (map (fun xj => exp (dot xj [0; 1])) [[5; 6]]) + INR (2 - 1)))%R /\
    exists qrows out,
      has_shape2 2 2 qrows /\
      fst (forward (RL := halving_lstm R) example_x example_batch
             (example_world 3)) = Some out /\
      nth (2 + 0) (nth 1 out []) 0%R
      = (sum1 (map (fun xj => exp (dot xj (nth 1 qrows [])) * nth 0 xj 0)
                [[5; 6]])
         / (sum1 (map (fun xj => exp (dot xj (nth 1 qrows []))) [[5; 6]])
            + INR (2 - 1)))%R.
Proof.
  destruct (padding_is_not_masked (RL := halving_lstm R) (example_world 3)
              example_x example_batch example_padded [2; 1] 2 0
              [[[1; 0; 7; 7]; [0; 1; 7; 7]]]%R [[[1; 0]; [0; 1]]]%R
              ([], []) ([], []) 1)
    as (qv & e & q_star' & Hv & He & Hstep & _ & Hpad & _ & Hsum & Hread
        & Hout).
  - exact example_to_batch.
  - exact example_rows.
  - reflexivity.
  - reflexivity.
  - reflexivity.
  - repeat constructor.
  - repeat constructor.
  - repeat constructor.
  - exists qv, e, q_star'.
    split; [exact Hv|]. split; [exact He|]. split; [exact Hstep|].
    split; [apply (Hpad 1); split; repeat constructor|].
    split; [exact Hsum|].
    split; [exact (proj2 (Hread 0 ltac:(repeat constructor)))|].
    destruct (Hout 1 eq_refl (halving_lstm_shapes R 1 2 2) eq_refl)
      as (qrows & out & Hqr & Eout & Hk).
    exists qrows, out. split; [exact Hqr|]. split; [exact Eout|].
    exact (Hk 0 ltac:(repeat constructor)).
Defined.
